(** * educe.rst_dt.dep2con: dependency trees to constituency trees

    A shallow embedding of [educe/rst_dt/dep2con.py]: the dummy nuclearity
    classifier, the inside-out attachment ranker and the conversion of a
    ranked, nuclearity-annotated dependency tree into a binary RST tree. *)

From Stdlib Require Import ZArith Lia.
From stdpp Require Import base list strings gmap sorting.

Open Scope string_scope.
Open Scope list_scope.
Open Scope stdpp_scope.
Open Scope Z_scope.

(** ** Python values and exceptions *)

(** The exceptions that the code raises, itself or through a list, a
    dictionary or an attribute; [RstDtException] is the one of
    [educe.rst_dt.deptree], and [RecursionLimit] stands for the error of a
    recursion that is too deep. *)
Inductive exn :=
| ValueError
| IndexError
| KeyError
| AttributeError
| RstDtException
| RecursionLimit.

(** A computation returns a value or raises. *)
Inductive result (A : Type) :=
| Ok (a : A)
| Raise (e : exn).
Arguments Ok {A} a.
Arguments Raise {A} e.

Definition bind {A B} (m : result A) (k : A → result B) : result B :=
  match m with
  | Ok a => k a
  | Raise e => Raise e
  end.

Notation "x ← m ; k" := (bind m (λ x, k))
  (at level 20, m at level 100, k at level 200, right associativity,
   only parsing).
Notation "' pat ← m ; k" := (bind m (λ x, match x with pat => k end))
  (at level 20, pat pattern, m at level 100, k at level 200,
   right associativity, only parsing).

(** A list comprehension whose body may raise. *)
Fixpoint mapM {A B} (f : A → result B) (l : list A) : result (list B) :=
  match l with
  | [] => Ok []
  | x :: l' => y ← f x; ys ← mapM f l'; Ok (y :: ys)
  end.

(** [l[i]] on a Python list: negative indices count from the end. *)
Definition py_index {A} (l : list A) (i : Z) : result A :=
  let n := Z.of_nat (length l) in
  let j := if bool_decide (i < 0) then n + i else i in
  if bool_decide (0 ≤ j < n) then
    match l !! Z.to_nat j with
    | Some x => Ok x
    | None => Raise IndexError
    end
  else Raise IndexError.

(** [l[i] = x] on a Python list. *)
Definition py_setitem {A} (l : list A) (i : Z) (x : A) : result (list A) :=
  let n := Z.of_nat (length l) in
  let j := if bool_decide (i < 0) then n + i else i in
  if bool_decide (0 ≤ j < n) then Ok (<[Z.to_nat j := x]> l)
  else Raise IndexError.

(** [d[k]] on a Python dict. *)
Definition py_getitem (d : gmap Z Z) (k : Z) : result Z :=
  match d !! k with
  | Some v => Ok v
  | None => Raise KeyError
  end.

(** [enumerate(l)] *)
Definition enumerate {A} (l : list A) : list (Z * A) :=
  imap (λ i x, (Z.of_nat i, x)) l.

(** [l.pop()]: removes and returns the last item. *)
Definition pop {A} (l : list A) : result (A * list A) :=
  match last l with
  | Some x => Ok (x, removelast l)
  | None => Raise IndexError
  end.

(** [l.index(x)]: position of the first item equal to [x]. *)
Definition list_index (x : Z) (l : list Z) : result nat :=
  match list_find (λ y, y = x) l with
  | Some (i, _) => Ok i
  | None => Raise ValueError
  end.

(** [sorted(l, key=...)]: the keys are computed first, one per item and in
    order, then the items are sorted stably on their keys. *)
Section sorted.
Context {A K : Type} (leb : K → K → bool).

Fixpoint insert_key (x : K * A) (l : list (K * A)) : list (K * A) :=
  match l with
  | [] => [x]
  | y :: l' => if leb x.1 y.1 then x :: l else y :: insert_key x l'
  end.

Definition stable_sort (l : list (K * A)) : list (K * A) :=
  foldr insert_key [] l.

Definition sorted (key : A → result K) (l : list A) : result (list A) :=
  ks ← mapM key l;
  Ok ((stable_sort (zip ks l)).*2).
End sorted.

(** Order of Python tuples of integers. *)
Definition leb2 (a b : Z * Z) : bool :=
  (a.1 <? b.1) || ((a.1 =? b.1) && (a.2 <=? b.2)).
Definition leb3 (a b : Z * Z * Z) : bool :=
  (a.1.1 <? b.1.1) || ((a.1.1 =? b.1.1) && leb2 (a.1.2, a.2) (b.1.2, b.2)).

(** [itertools.izip_longest(l, r)], padding with [None]. *)
Fixpoint izip_longest {A} (l r : list A) : list (option A * option A) :=
  match l with
  | [] => (λ y, (None, Some y)) <$> r
  | x :: l' =>
      match r with
      | [] => (Some x, None) :: izip_longest l' []
      | y :: r' => (Some x, Some y) :: izip_longest l' r'
      end
  end.

(** [itertools.chain.from_iterable] over pairs. *)
Definition chain_pairs {A} (l : list (A * A)) : list A :=
  concat ((λ p, [p.1; p.2]) <$> l).

(** ** Data model *)

(** Modelled from the spec: the class [Span] of [educe.annotation], which
    is not among the sources. A span is the half-open range of characters
    from [char_start] to [char_end]. *)
Record Span := mkSpan { char_start : Z; char_end : Z }.

(** Modelled from the spec: [Span.overlaps], missing with [Span]. Two
    half-open spans overlap when they have a character in common. *)
Definition overlaps (a b : Span) : bool :=
  bool_decide (char_start a `max` char_start b < char_end a `min` char_end b).

(** Modelled from the spec: the order [<=] of [Span], missing with [Span].
    Spans are ordered by their position in the text, the earlier start
    first and, for the same start, the earlier end first. *)
Definition span_le (a b : Span) : bool :=
  leb2 (char_start a, char_end a) (char_start b, char_end b).

(** Modelled from the spec: [Span.merge], missing with [Span]. The merge
    of two spans is the span that covers both. *)
Definition merge (a b : Span) : Span :=
  mkSpan (char_start a `min` char_start b) (char_end a `max` char_end b).

(** Modelled from the spec: the class [EDU] of [educe.rst_dt.annotation],
    which is not among the sources. An elementary discourse unit has a
    number, its position in the order of the text, and a character span. *)
Record EDU := mkEDU { num : Z; span : Span }.

(** Modelled from the spec: [EDU.text_span], missing with [EDU]. *)
Definition text_span (e : EDU) : Span := span e.

(** Modelled from the spec: the constants [NUC_N], [NUC_S] and [NUC_R] of
    [educe.rst_dt.deptree], which is not among the sources: nucleus,
    satellite and root. *)
Inductive nuclearity := NUC_N | NUC_S | NUC_R.

(** A relation label; the fake root has none ([None]). *)
Definition label := option string.

(** Modelled from the spec: the class [RstDepTree] of
    [educe.rst_dt.deptree], which is not among the sources. Its arrays are
    indexed by node, node 0 being the fake root; [idx] maps a node to its
    position and [sent_idx], when the tree has it, a position to its
    sentence. *)
Record RstDepTree := mkDepTree {
  edus : list EDU;
  heads : list Z;
  labels : list label;
  nucs : list nuclearity;
  ranks : list nat;
  idx : gmap Z Z;
  sent_idx : option (list Z)
}.

(** ** InsideOutAttachmentRanker *)

(** The names that [__init__] accepts. *)
Definition ranker_strategies : list string :=
  ["id"; "lllrrr"; "rrrlll"; "lrlrlr"; "rlrlrl"; "closest-lr"; "closest-rl";
   "closest-intra-lr-inter-lr"; "closest-intra-rl-inter-rl";
   "closest-intra-rl-inter-lr"].

Record InsideOutAttachmentRanker := mkRanker { rk_strategy : string }.

(** [InsideOutAttachmentRanker.__init__] *)
Definition ranker_init (strategy : string) : result InsideOutAttachmentRanker :=
  if bool_decide (strategy ∉ ranker_strategies) then Raise ValueError
  else Ok (mkRanker strategy).

(** [InsideOutAttachmentRanker.fit] *)
Definition ranker_fit (rk : InsideOutAttachmentRanker) : InsideOutAttachmentRanker := rk.

(** [[i for i, hd in enumerate(dtree.heads) if hd == head]] *)
Definition targets_of (dtree : RstDepTree) (head : Z) : list Z :=
  (filter (λ p, p.2 = head) (enumerate (heads dtree))).*1.

(** [[left.pop() if (tree in left) else right.pop() for tree in targets]] *)
Fixpoint order_id (targets left right : list Z) : result (list Z) :=
  match targets with
  | [] => Ok []
  | tree :: ts =>
      if bool_decide (tree ∈ left) then
        '(x, left') ← pop left;
        r ← order_id ts left' right; Ok (x :: r)
      else
        '(x, right') ← pop right;
        r ← order_id ts left right'; Ok (x :: r)
  end.

(** [[first.pop() if first else second.pop() for _ in targets]] *)
Fixpoint order_side (targets first second : list Z) : result (list Z) :=
  match targets with
  | [] => Ok []
  | _ :: ts =>
      if bool_decide (first ≠ []) then
        '(x, first') ← pop first;
        r ← order_side ts first' second; Ok (x :: r)
      else
        '(x, second') ← pop second;
        r ← order_side ts first second'; Ok (x :: r)
  end.

(** The alternating strategies: zip the two queues, chain, drop [None]. *)
Definition order_alternate (first_io second_io : list Z) : list Z :=
  omap id (chain_pairs (izip_longest first_io second_io)).

Section predict_head.
Context (dtree : RstDepTree) (head : Z).

Definition side (right_code left_code : Z) (e_idx head_idx : Z) : Z :=
  if bool_decide (e_idx > head_idx) then right_code else left_code.

(** sort key of 'closest-rl' (codes 1, 2) and 'closest-lr' (codes 2, 1) *)
Definition closest_key (right_code left_code : Z) (head_idx : Z) (e : Z)
  : result (Z * Z) :=
  e_idx ← py_getitem (idx dtree) e;
  e_idx' ← py_getitem (idx dtree) e;
  Ok (Z.abs (e_idx - head_idx), side right_code left_code e_idx' head_idx).

Definition same_sentence (sents : list Z) (e : Z) : result bool :=
  e_idx ← py_getitem (idx dtree) e;
  se ← py_index sents e_idx;
  h_idx ← py_getitem (idx dtree) head;
  sh ← py_index sents h_idx;
  Ok (bool_decide (se = sh)).

Definition intra_code (sents : list Z) (e : Z) : result Z :=
  b ← same_sentence sents e; Ok (if b then 1 else 2).

(** sort key of 'closest-intra-rl-inter-rl' (codes 1, 2) and
    'closest-intra-lr-inter-lr' (codes 2, 1) *)
Definition intra_key (right_code left_code : Z) (sents : list Z)
    (head_idx : Z) (e : Z) : result (Z * Z * Z) :=
  k1 ← intra_code sents e;
  e_idx ← py_getitem (idx dtree) e;
  e_idx' ← py_getitem (idx dtree) e;
  Ok (k1, Z.abs (e_idx - head_idx), side right_code left_code e_idx' head_idx).

(** sort key of 'closest-intra-rl-inter-lr' *)
Definition intra_rl_inter_lr_key (sents : list Z) (head_idx : Z) (e : Z)
  : result (Z * Z * Z) :=
  k1 ← intra_code sents e;
  e_idx ← py_getitem (idx dtree) e;
  e_idx' ← py_getitem (idx dtree) e;
  c1 ← (if bool_decide (e_idx' > head_idx) then same_sentence sents e
        else Ok false);
  c ← (if c1 then Ok true
       else
         e_idx'' ← py_getitem (idx dtree) e;
         if bool_decide (e_idx'' < head_idx) then
           b ← same_sentence sents e; Ok (negb b)
         else Ok false);
  Ok (k1, Z.abs (e_idx - head_idx), if c then 1 else 2).

(** The body of the loop over heads, up to the computation of [result]. *)
Definition order_targets (strategy : string) : result (list Z) :=
  let targets := targets_of dtree head in
  sorted_nodes ← sorted Z.leb
    (λ x, e ← py_index (edus dtree) x; Ok (char_start (span e)))
    (head :: targets);
  centre ← list_index head sorted_nodes;
  let left := take centre sorted_nodes in
  let right := reverse (drop (S centre) sorted_nodes) in
  if bool_decide (strategy = "id") then order_id targets left right
  else if bool_decide (strategy = "lllrrr") then order_side targets left right
  else if bool_decide (strategy = "rrrlll") then order_side targets right left
  else if bool_decide (strategy = "lrlrlr") then
    Ok (order_alternate (reverse left) (reverse right))
  else if bool_decide (strategy = "rlrlrl") then
    Ok (order_alternate (reverse right) (reverse left))
  else if bool_decide (strategy = "closest-rl") then
    head_idx ← py_getitem (idx dtree) head;
    sorted leb2 (closest_key 1 2 head_idx) targets
  else if bool_decide (strategy = "closest-lr") then
    head_idx ← py_getitem (idx dtree) head;
    sorted leb2 (closest_key 2 1 head_idx) targets
  else
    match sent_idx dtree with
    | None => Raise ValueError
    | Some sents =>
        if bool_decide (strategy = "closest-intra-rl-inter-lr") then
          head_idx ← py_getitem (idx dtree) head;
          sorted leb3 (intra_rl_inter_lr_key sents head_idx) targets
        else if bool_decide (strategy = "closest-intra-rl-inter-rl") then
          head_idx ← py_getitem (idx dtree) head;
          sorted leb3 (intra_key 1 2 sents head_idx) targets
        else if bool_decide (strategy = "closest-intra-lr-inter-lr") then
          head_idx ← py_getitem (idx dtree) head;
          sorted leb3 (intra_key 2 1 sents head_idx) targets
        else Raise RstDtException
    end.
End predict_head.

(** [for i, tgt in enumerate(result): ranks[tgt] = i] *)
Fixpoint update_ranks (i : nat) (res : list Z) (rks : list nat)
  : result (list nat) :=
  match res with
  | [] => Ok rks
  | tgt :: rest => rks' ← py_setitem rks tgt i; update_ranks (S i) rest rks'
  end.

(** The loop over [unique_heads]; a Python set has no specified order of
    iteration, the heads are taken here in the order of [remove_dups].
    The order decides only which exception is raised when several heads
    fail. *)
Fixpoint rank_heads (strategy : string) (dtree : RstDepTree)
    (hs : list Z) (rks : list nat) : result (list nat) :=
  match hs with
  | [] => Ok rks
  | head :: hs' =>
      res ← order_targets dtree head strategy;
      rks' ← update_ranks 0 res rks;
      rank_heads strategy dtree hs' rks'
  end.

Definition unique_heads (dtree : RstDepTree) : list Z :=
  remove_dups (drop 1 (heads dtree)).

Definition predict_tree (strategy : string) (dtree : RstDepTree)
  : result (list nat) :=
  rank_heads strategy dtree (unique_heads dtree)
    ((λ _, 0%nat) <$> heads dtree).

(** [InsideOutAttachmentRanker.predict] *)
Definition ranker_predict (rk : InsideOutAttachmentRanker)
    (X : list RstDepTree) : result (list (list nat)) :=
  mapM (predict_tree (rk_strategy rk)) X.

(** A small document: units 1..n at [10*i, 10*i+5), the fake root's
    padding unit at (0, 0). *)
Definition unit_at (i : nat) : EDU :=
  mkEDU (Z.of_nat i) (mkSpan (10 * Z.of_nat i) (10 * Z.of_nat i + 5)).
Definition lpad : EDU := mkEDU 0 (mkSpan 0 0).
Definition doc_edus (n : nat) : list EDU := lpad :: (unit_at <$> seq 1 n).
Definition doc_idx (n : nat) : gmap Z Z :=
  list_to_map ((λ i, (Z.of_nat i, Z.of_nat i)) <$> seq 0 (S n)).
Definition doc_tree (hds : list Z) (lbls : list label) (rks : list nat)
  : RstDepTree :=
  let n := pred (length hds) in
  mkDepTree (doc_edus n) hds lbls (replicate (S n) NUC_S) rks (doc_idx n) None.

(** ** DummyNuclearityClassifier *)

(** [multinuc_lbls] is an attribute that only [fit] sets. *)
Record DummyNuclearityClassifier := mkClassifier {
  clf_strategy : string;
  multinuc_lbls : option (list string)
}.

(** [DummyNuclearityClassifier.__init__]: stores the name, checks nothing. *)
Definition classifier_init (strategy : string)
  : result DummyNuclearityClassifier :=
  Ok (mkClassifier strategy None).

(** The names that [fit] accepts. *)
Definition classifier_strategies : list string :=
  ["unamb_else_most_frequent"; "most_frequent_by_rel"].

Section classifier_fit.
(** [get_most_frequent_unuc(load_training_as_dataframe()).items()], the
    table of the training corpus: relation name, most frequent
    nuclearity pattern. *)
Context (most_frequent_unuc : list (string * string)).

(** [DummyNuclearityClassifier.fit] *)
Definition classifier_fit (clf : DummyNuclearityClassifier)
  : result DummyNuclearityClassifier :=
  if bool_decide (clf_strategy clf ∉ classifier_strategies)
  then Raise ValueError
  else if bool_decide (clf_strategy clf = "unamb_else_most_frequent") then
    Ok (mkClassifier (clf_strategy clf) (Some ["joint"; "same-unit"; "textual"]))
  else if bool_decide (clf_strategy clf = "most_frequent_by_rel") then
    Ok (mkClassifier (clf_strategy clf)
          (Some (filter (λ p, p.2 = "NN") most_frequent_unuc).*1))
  else Ok clf.
End classifier_fit.

(** [rel in self.multinuc_lbls] *)
Definition label_in (rel : label) (lbls : list string) : bool :=
  match rel with
  | Some s => bool_decide (s ∈ lbls)
  | None => false
  end.

Definition predict_nuc (clf : DummyNuclearityClassifier) (rel : label)
  : result nuclearity :=
  match multinuc_lbls clf with
  | Some lbls => Ok (if label_in rel lbls then NUC_N else NUC_S)
  | None => Raise AttributeError
  end.

(** [DummyNuclearityClassifier.predict] *)
Definition classifier_predict (clf : DummyNuclearityClassifier)
    (X : list RstDepTree) : result (list (list nuclearity)) :=
  mapM (λ dtree, mapM (predict_nuc clf) (labels dtree)) X.

(** ** deptree_to_simple_rst_tree *)

(** Modelled from the spec: the class [Node] of [educe.rst_dt.annotation],
    which is not among the sources, with the four fields that
    [parts_to_tree] gives it: nuclearity, unit span, character span and
    relation. *)
Record Node := mkNode {
  node_nuclearity : nuclearity;
  node_edu_span : Z * Z;
  node_span : Span;
  node_rel : label
}.

(** Modelled from the spec: the class [SimpleRSTTree] of
    [educe.rst_dt.annotation], which is not among the sources: a tree whose
    nodes carry a [Node] and a list of children, and whose leaves are
    units. *)
#[warnings="-register-all"]
Inductive SimpleRSTTree :=
| Tree (node : Node) (kids : list SimpleRSTTree)
| Leaf (edu : EDU).

(** Modelled from the spec: [treenode] of [educe.internalutil], which is
    not among the sources: the [Node] at the top of a tree. *)
Definition treenode (t : SimpleRSTTree) : result Node :=
  match t with
  | Tree node _ => Ok node
  | Leaf _ => Raise AttributeError
  end.

(** [TreeParts], the named tuple [edu edu_span span rel kids]. *)
Record TreeParts := mkTreeParts {
  tp_edu : EDU;
  tp_edu_span : Z * Z;
  tp_span : Span;
  tp_rel : label;
  tp_kids : list SimpleRSTTree
}.

(** [mk_leaf] *)
Definition mk_leaf (edu : EDU) : TreeParts :=
  mkTreeParts edu (num edu, num edu) (text_span edu) (Some "leaf") [].

(** [parts_to_tree]; [parts.kids or [parts.edu]] takes the unit when there
    is no child. *)
Definition parts_to_tree (nuc : nuclearity) (parts : TreeParts) : SimpleRSTTree :=
  let node := mkNode nuc (tp_edu_span parts) (tp_span parts) (tp_rel parts) in
  let kids := match tp_kids parts with
              | [] => [Leaf (tp_edu parts)]
              | ks => ks
              end in
  Tree node kids.

(** [connect_trees] *)
Definition connect_trees (src tgt : TreeParts) (rel : label) (nuc : nuclearity)
  : result TreeParts :=
  let tgt_nuc := nuc in
  if overlaps (tp_span src) (tp_span tgt) then Raise RstDtException
  else
    let '(left_, right_) :=
      if span_le (tp_span src) (tp_span tgt)
      then (parts_to_tree NUC_N src, parts_to_tree tgt_nuc tgt)
      else (parts_to_tree tgt_nuc tgt, parts_to_tree NUC_N src) in
    l ← treenode left_;
    r ← treenode right_;
    let l_edu_span := node_edu_span l in
    let r_edu_span := node_edu_span r in
    let edu_span := (l_edu_span.1 `min` r_edu_span.1,
                     l_edu_span.2 `max` r_edu_span.2) in
    Ok (mkTreeParts (tp_edu src) edu_span
          (merge (tp_span src) (tp_span tgt)) rel [left_; right_]).

(** Modelled from the spec: the dependents of a node, for
    [RstDepTree.deps] and [RstDepTree.real_roots_idx], which are missing
    with [RstDepTree]: the nodes [i > 0] whose head is [gov]. *)
Definition dependents (dtree : RstDepTree) (gov : Z) : list Z :=
  (filter (λ p, 0 < p.1 ∧ p.2 = gov) (enumerate (heads dtree))).*1.

(** The order of ranks. *)
Definition leb_nat (a b : nat) : bool := bool_decide (a ≤ b)%nat.

(** Modelled from the spec: [RstDepTree.deps], missing with [RstDepTree]:
    the dependents of a node sorted by ascending rank. *)
Definition deps (dtree : RstDepTree) (gov : Z) : result (list Z) :=
  sorted leb_nat (py_index (ranks dtree)) (dependents dtree gov).

(** Modelled from the spec: [RstDepTree.real_roots_idx], missing with
    [RstDepTree]: the nodes whose head is the fake root 0. *)
Definition real_roots_idx (dtree : RstDepTree) : list Z := dependents dtree 0.

(** The loop [for tgt in ranked_targets: src = walk(src, tgt)]. *)
Fixpoint fold_walk (walk : option TreeParts → Z → result TreeParts)
    (src : TreeParts) (tgts : list Z) : result TreeParts :=
  match tgts with
  | [] => Ok src
  | tgt :: rest => src' ← walk (Some src) tgt; fold_walk walk src' rest
  end.

(** [walk]; the recursion follows the dependency tree and is bounded by
    [fuel], as Python bounds the depth of the stack. *)
Fixpoint walk (fuel : nat) (dtree : RstDepTree)
    (ancestor : option TreeParts) (subtree : Z) : result TreeParts :=
  match fuel with
  | O => Raise RecursionLimit
  | S fuel' =>
      rel ← py_index (labels dtree) subtree;
      nuc ← py_index (nucs dtree) subtree;
      edu ← py_index (edus dtree) subtree;
      let src := mk_leaf edu in
      ranked_targets ← deps dtree subtree;
      src ← fold_walk (walk fuel' dtree) src ranked_targets;
      match ancestor with
      | Some anc => connect_trees anc src rel nuc
      | None => Ok src
      end
  end.

(** [deptree_to_simple_rst_tree], with the bound [fuel] for [walk]. *)
Definition deptree_to_simple_rst_tree (fuel : nat) (dtree : RstDepTree)
  : result SimpleRSTTree :=
  let roots := real_roots_idx dtree in
  if bool_decide (length roots = 1%nat) then
    real_root ← py_index roots 0;
    rparts ← walk fuel dtree None real_root;
    Ok (parts_to_tree NUC_R rparts)
  else Raise RstDtException.

(** [tree.leaves()] *)
Fixpoint leaves (t : SimpleRSTTree) : list EDU :=
  match t with
  | Tree _ kids => concat (map leaves kids)
  | Leaf edu => [edu]
  end.

(** The tree with the array of ranks [rks]. *)
Definition with_ranks (dtree : RstDepTree) (rks : list nat) : RstDepTree :=
  mkDepTree (edus dtree) (heads dtree) (labels dtree) (nucs dtree) rks
    (idx dtree) (sent_idx dtree).

(** ** Shapes of the trees that are built *)

Global Instance Span_eq_dec : EqDecision Span.
Proof. solve_decision. Defined.

(** [P] holds of every node of the tree, with the node's children. *)
Fixpoint all_nodes (P : Node → list SimpleRSTTree → bool)
    (t : SimpleRSTTree) : bool :=
  match t with
  | Leaf _ => true
  | Tree node kids => P node kids && forallb (all_nodes P) kids
  end.


(** A node either holds one unit, or has exactly two subtrees whose spans
    do not overlap and merge into its own. *)
Definition binary_ok (node : Node) (kids : list SimpleRSTTree) : bool :=
  match kids with
  | [Leaf _] => true
  | [Tree l _; Tree r _] =>
      bool_decide (node_span node = merge (node_span l) (node_span r))
      && negb (overlaps (node_span l) (node_span r))
  | _ => false
  end.

(** The leaves below partial trees. *)
Definition leaves_parts (parts : TreeParts) : list EDU :=
  leaves (parts_to_tree NUC_N parts).

(** The unit of a node. *)
Definition edu_at (dtree : RstDepTree) (i : Z) : EDU :=
  default lpad (edus dtree !! Z.to_nat i).

(** [a] ends in the text before [b] starts. *)
Definition before (a b : EDU) : Prop :=
  char_end (span a) ≤ char_start (span b).

(** A node whose chain of heads ends at the fake root. *)
Inductive attached (dtree : RstDepTree) : Z → Prop :=
| attached_root (i : nat) :
    (0 < i)%nat → heads dtree !! i = Some 0 → attached dtree (Z.of_nat i)
| attached_step (i : nat) (h : Z) :
    (0 < i)%nat → heads dtree !! i = Some h → attached dtree h →
    attached dtree (Z.of_nat i).

(** Well-formed input: one unit per node, every node but the fake root is
    attached (there is no cycle), and no unit has an empty span. *)
Record well_formed (dtree : RstDepTree) : Prop := {
  wf_lengths : length (edus dtree) = length (heads dtree);
  wf_attached : ∀ i : nat,
    (0 < i < length (heads dtree))%nat → attached dtree (Z.of_nat i);
  wf_spans : ∀ e, e ∈ drop 1 (edus dtree) →
    char_start (span e) < char_end (span e)
}.

(** The document of four units: 2 is the root, 1 its left dependent, 3 and
    4 its right dependents, attached in the order 1, 3, 4. *)
Definition four_units_tree : RstDepTree :=
  doc_tree [-1; 2; 0; 2; 2]
    [None; Some "L"; Some "ROOT"; Some "R1"; Some "R2"] [0; 0; 0; 1; 2]%nat.

(** The document of one unit. *)
Definition one_unit_tree : RstDepTree :=
  doc_tree [-1; 0] [None; Some "ROOT"] [0; 0]%nat.

(** ** Notions used in the statements *)

(** The ranks of the nodes [T], [None] where the array has no entry. *)
Definition ranks_on (rks : list nat) (T : list Z) : list (option nat) :=
  (λ i, rks !! Z.to_nat i) <$> T.

(** The ranks of the nodes [T] are 0, 1, .., |T|-1 in some order. *)
Definition ranks_permutation (rks : list nat) (T : list Z) : Prop :=
  ranks_on rks T ≡ₚ Some <$> seq 0 (length T).

(** The ranks of the dependents of [h] are the positions in the order that
    the strategy computes for [h]. *)
Definition ranked_as (strategy : string) (dtree : RstDepTree)
    (rks : list nat) (h : Z) : Prop :=
  ∃ res, order_targets dtree h strategy = Ok res ∧
         ranks_on rks res = Some <$> seq 0 (length res).

(** The target list of the docstring, [l3 r1 r3 l2 l1 r2] around the head
    [h]: nodes 1..6 are the dependents in that order, node 7 is the head. *)
Definition docstring_edus : list EDU :=
  [ lpad;
    mkEDU 1 (mkSpan 10 15);   (* l3 *)
    mkEDU 2 (mkSpan 50 55);   (* r1 *)
    mkEDU 3 (mkSpan 70 75);   (* r3 *)
    mkEDU 4 (mkSpan 20 25);   (* l2 *)
    mkEDU 5 (mkSpan 30 35);   (* l1 *)
    mkEDU 6 (mkSpan 60 65);   (* r2 *)
    mkEDU 7 (mkSpan 40 45) ]. (* h *)

Definition docstring_tree : RstDepTree :=
  mkDepTree docstring_edus [-1; 7; 7; 7; 7; 7; 7; 0] [] [] [] (doc_idx 7) None.

(** The tree with the root 3 and its two left dependents 1 and 2. *)
Definition two_left_tree : RstDepTree := doc_tree [-1; 3; 3; 0] [] [].

(** The label that [predict] gives for the relation [rel]. *)
Definition nuc_of (lbls : list string) (rel : label) : nuclearity :=
  if label_in rel lbls then NUC_N else NUC_S.

(** Both constructors reject the name [s]. *)
Definition rejected_at_construction (s : string) : Prop :=
  ranker_init s = Raise ValueError ∧ classifier_init s = Raise ValueError.

(** Nodes 1 and 2 are both attached to the fake root. *)
Definition two_roots_tree : RstDepTree :=
  doc_tree [-1; 0; 0] [None; Some "ROOT"; Some "ROOT"] [0; 0; 0]%nat.

(** The leaves below [parts] follow each other in the text, none is
    empty, and the span of [parts] covers them. *)
Record text_ordered (parts : TreeParts) : Prop := {
  to_sorted : StronglySorted before (leaves_parts parts);
  to_nonempty : char_start (tp_span parts) < char_end (tp_span parts);
  to_covered : ∀ e, e ∈ leaves_parts parts →
    char_start (tp_span parts) ≤ char_start (span e) ∧
    char_end (span e) ≤ char_end (tp_span parts)
}.

(** A node other than the fake root. *)
Definition real_node (dtree : RstDepTree) (x : Z) : Prop :=
  ∃ i : nat, x = Z.of_nat i ∧ (0 < i < length (heads dtree))%nat.

(** A set of real nodes that has the dependents of each of its nodes. *)
Definition closed_nodes (dtree : RstDepTree) (nodes : list Z) : Prop :=
  ∀ x, x ∈ nodes →
       real_node dtree x ∧ ∀ c, c ∈ dependents dtree x → c ∈ nodes.

(** What a call of [walk] on the node [s] adds to the leaves of its
    ancestor: the units of a closed set of nodes that has [s]. *)
Definition adds_subtree (dtree : RstDepTree) (leaves_before : list EDU) (s : Z)
    (res : TreeParts) : Prop :=
  ∃ nodes, leaves_parts res ≡ₚ leaves_before ++ (edu_at dtree <$> nodes) ∧
           s ∈ nodes ∧ closed_nodes dtree nodes.

(** [sorted(units, key=lambda e: e.span.char_start)] *)
Definition sorted_by_start (units : list EDU) : result (list EDU) :=
  sorted Z.leb (λ e, Ok (char_start (span e))) units.

(** The strategies that only look at the positions of the units. *)
Definition positional_strategies : list string :=
  ["lllrrr"; "rrrlll"; "lrlrlr"; "rlrlrl"].

(** Every node and every head is the index of a unit. *)
Definition units_for_heads (dtree : RstDepTree) : Prop :=
  (length (heads dtree) ≤ length (edus dtree))%nat ∧
  ∀ h, h ∈ drop 1 (heads dtree) →
       - Z.of_nat (length (edus dtree)) ≤ h < Z.of_nat (length (edus dtree)).

(** ** Notions used in the further properties *)

(** The sort key of [predict]: [dtree.edus[x].span.char_start]. *)
Definition start_key (dtree : RstDepTree) (x : Z) : result Z :=
  e ← py_index (edus dtree) x; Ok (char_start (span e)).

(** The dependents on the two sides of [head], each side from the nearest
    to the farthest: the sort of [head] and its targets by start puts the
    left ones, farthest first, before the first occurrence of [head] and
    the right ones, nearest first, after it. *)
Definition around (dtree : RstDepTree) (head : Z) (left_io right_io : list Z)
  : Prop :=
  sorted Z.leb (start_key dtree) (head :: targets_of dtree head)
  = Ok (reverse left_io ++ head :: right_io) ∧
  head ∉ left_io.

(** Alternating two lists, the first one first, and going on with what is
    left of one when the other is exhausted. *)
Fixpoint interleave (l r : list Z) : list Z :=
  match l, r with
  | [], _ => r
  | _, [] => l
  | x :: l', y :: r' => x :: y :: interleave l' r'
  end.

(** The nodes of [res] have the ranks 0, 1, 2, .. in this order. *)
Definition ranked_in_order (rks : list nat) (res : list Z) : Prop :=
  ranks_on rks res = Some <$> seq 0 (length res).

(** The head 3 with the left dependents 1 and 2 and the right dependents
    4, 5 and 6. *)
Definition six_units_tree : RstDepTree :=
  doc_tree [-1; 3; 3; 0; 3; 3; 3] [] [].

(** The head 2 with one dependent on the left and two on the right. *)
Definition three_dependents_tree : RstDepTree :=
  doc_tree [-1; 2; 0; 2; 2] [] [].

(** The strategies that look at the sentences. *)
Definition intra_strategies : list string :=
  ["closest-intra-rl-inter-lr"; "closest-intra-rl-inter-rl";
   "closest-intra-lr-inter-lr"].

Global Instance nuclearity_eq_dec : EqDecision nuclearity.
Proof. solve_decision. Defined.

(** One of the two subtrees of a node is a nucleus. *)
Definition nucleus_ok (node : Node) (kids : list SimpleRSTTree) : bool :=
  match kids with
  | [Tree l _; Tree r _] =>
      bool_decide (node_nuclearity l = NUC_N ∨ node_nuclearity r = NUC_N)
  | _ => true
  end.

(** A node that holds a unit has the number of the unit, twice, as its
    unit span and the span of the unit as its span. *)
Definition leaf_span_ok (node : Node) (kids : list SimpleRSTTree) : bool :=
  match kids with
  | [Leaf e] =>
      bool_decide (node_edu_span node = (num e, num e)
                   ∧ node_span node = text_span e)
  | _ => true
  end.

(** [sp] goes from the least to the greatest number of the units [es]. *)
Definition covers_units (es : list EDU) (sp : Z * Z) : Prop :=
  (∃ e, e ∈ es ∧ num e = sp.1) ∧
  (∃ e, e ∈ es ∧ num e = sp.2) ∧
  ∀ e, e ∈ es → sp.1 ≤ num e ≤ sp.2.

(** The head 2 with the dependents 1, 3 and 4; the unit 1 is in another
    sentence than the others. *)
Definition two_sentences_tree : RstDepTree :=
  mkDepTree (doc_edus 4) [-1; 2; 0; 2; 2] [] [] [] (doc_idx 4)
    (Some [9; 1; 0; 0; 0]).

(** The tree [t] is built for the node [h]: it is the leaf of the unit of
    [h], or it has two subtrees, one built for [h] itself and wrapped as a
    nucleus, the other built for a dependent [d] of [h] and wrapped with the
    nuclearity of [d]; the node above the two carries the label of [d].  The
    side of the head may be the left or the right one. *)
Inductive headed (dtree : RstDepTree) : Z → SimpleRSTTree → Prop :=
| headed_leaf (h : Z) (e : EDU) (node : Node) :
    py_index (edus dtree) h = Ok e →
    headed dtree h (Tree node [Leaf e])
| headed_left (h d : Z) (node hn dn : Node) (ht dt : SimpleRSTTree) :
    treenode ht = Ok hn → treenode dt = Ok dn →
    node_nuclearity hn = NUC_N →
    d ∈ dependents dtree h →
    py_index (nucs dtree) d = Ok (node_nuclearity dn) →
    py_index (labels dtree) d = Ok (node_rel node) →
    headed dtree h ht → headed dtree d dt →
    headed dtree h (Tree node [ht; dt])
| headed_right (h d : Z) (node hn dn : Node) (ht dt : SimpleRSTTree) :
    treenode ht = Ok hn → treenode dt = Ok dn →
    node_nuclearity hn = NUC_N →
    d ∈ dependents dtree h →
    py_index (nucs dtree) d = Ok (node_nuclearity dn) →
    py_index (labels dtree) d = Ok (node_rel node) →
    headed dtree h ht → headed dtree d dt →
    headed dtree h (Tree node [dt; ht]).

(** Two runs end alike: both return, with the same value, or both raise. *)
Definition same_outcome {A} (a b : result A) : Prop :=
  match a, b with
  | Ok x, Ok y => x = y
  | Raise _, Raise _ => True
  | _, _ => False
  end.

(** * Properties *)

(** ** The exception monad and the Python primitives *)

Lemma bind_Ok {A B} (m : result A) (k : A → result B) (b : B) :
  bind m k = Ok b → ∃ a, m = Ok a ∧ k a = Ok b.
Proof. destruct m as [a|e]; simpl; [eauto | discriminate]. Qed.

Ltac inv_bind H :=
  let a := fresh "a" in
  let Ha := fresh "Ha" in
  apply bind_Ok in H as (a & Ha & H).

Ltac inv_ok :=
  repeat match goal with
  | H : Ok _ = Ok _ |- _ => injection H as H; try subst
  | H : Raise _ = Ok _ |- _ => discriminate H
  | H : (if ?b then _ else _) = Ok _ |- _ =>
      let E := fresh "E" in destruct b eqn:E
  end.

Lemma mapM_length {A B} (f : A → result B) l ys :
  mapM f l = Ok ys → length ys = length l.
Proof.
  revert ys; induction l as [|x l IH]; simpl; intros ys H.
  - by inv_ok.
  - inv_bind H. inv_bind H. inv_ok. simpl. f_equal. eauto.
Qed.

Lemma mapM_lookup {A B} (f : A → result B) l ys i x :
  mapM f l = Ok ys → l !! i = Some x → ∃ y, ys !! i = Some y ∧ f x = Ok y.
Proof.
  revert ys i; induction l as [|x0 l IH]; simpl; intros ys i H Hl; [done|].
  inv_bind H. inv_bind H. inv_ok. destruct i as [|i]; simpl in *.
  - injection Hl as ->. eauto.
  - eauto.
Qed.

Lemma mapM_total {A B} (f : A → result B) l :
  (∀ x, x ∈ l → ∃ y, f x = Ok y) → ∃ ys, mapM f l = Ok ys.
Proof.
  induction l as [|x l IH]; simpl; intros Hf; [eauto|].
  destruct (Hf x) as [y ->]; [by left|]. simpl.
  destruct IH as [ys ->]; [intros; apply Hf; by right|]. simpl. eauto.
Qed.

Lemma py_index_Ok {A} (l : list A) i x :
  py_index l i = Ok x → 0 ≤ i → l !! Z.to_nat i = Some x.
Proof.
  unfold py_index. intros H Hi.
  rewrite (bool_decide_eq_false_2 (i < 0)) in H by lia.
  inv_ok. destruct (l !! Z.to_nat i); by inv_ok.
Qed.

Lemma py_index_nat {A} (l : list A) (i : nat) x :
  l !! i = Some x → py_index l (Z.of_nat i) = Ok x.
Proof.
  intros H. unfold py_index. pose proof (lookup_lt_Some _ _ _ H).
  rewrite (bool_decide_eq_false_2 (Z.of_nat i < 0)) by lia.
  rewrite bool_decide_eq_true_2 by lia.
  by rewrite Nat2Z.id, H.
Qed.

Lemma py_setitem_nat {A} (l : list A) (i : nat) x :
  (i < length l)%nat → py_setitem l (Z.of_nat i) x = Ok (<[i := x]> l).
Proof.
  intros H. unfold py_setitem.
  rewrite (bool_decide_eq_false_2 (Z.of_nat i < 0)) by lia.
  rewrite bool_decide_eq_true_2 by lia.
  by rewrite Nat2Z.id.
Qed.

Lemma pop_Ok {A} (l l' : list A) x : pop l = Ok (x, l') → l = l' ++ [x].
Proof.
  unfold pop. destruct (last l) as [y|] eqn:E; intros H; inv_ok.
  apply last_Some in E as [l'' ->]. by rewrite removelast_last.
Qed.

Lemma pop_snoc {A} (l : list A) x : pop (l ++ [x]) = Ok (x, l).
Proof. unfold pop. by rewrite last_snoc, removelast_last. Qed.

Lemma list_index_Ok x l c :
  list_index x l = Ok c →
  l = take c l ++ x :: drop (S c) l ∧ x ∉ take c l.
Proof.
  unfold list_index.
  destruct (list_find _ l) as [[i y]|] eqn:E; intros H; inv_ok.
  apply list_find_Some in E as (Hl & -> & Hbefore). split.
  - by rewrite take_drop_middle.
  - intros Hin. apply list_elem_of_lookup in Hin as [j Hj].
    pose proof (lookup_lt_Some _ _ _ Hj) as Hlen.
    rewrite length_take in Hlen.
    rewrite lookup_take_lt in Hj by lia.
    eapply Hbefore; [exact Hj | lia | done].
Qed.

(** ** Sorting *)

Section sorted_facts.
Context {A K : Type} (leb : K → K → bool).

Lemma insert_key_perm (x : K * A) l : insert_key leb x l ≡ₚ x :: l.
Proof.
  induction l as [|y l IH]; simpl; [done|].
  destruct (leb x.1 y.1); [done|]. rewrite IH. apply Permutation_swap.
Qed.

Lemma stable_sort_perm (l : list (K * A)) : stable_sort leb l ≡ₚ l.
Proof.
  induction l as [|x l IH]; simpl; [done|].
  by rewrite insert_key_perm, IH.
Qed.

Lemma sorted_perm (key : A → result K) l l' :
  sorted leb key l = Ok l' → l' ≡ₚ l.
Proof.
  unfold sorted. intros H. inv_bind H. inv_ok.
  rewrite stable_sort_perm. apply mapM_length in Ha.
  rewrite snd_zip; [done | lia].
Qed.

Lemma sorted_total (key : A → result K) l :
  (∀ x, x ∈ l → ∃ k, key x = Ok k) → ∃ l', sorted leb key l = Ok l'.
Proof.
  intros H. unfold sorted. destruct (mapM_total key l H) as [ks ->].
  simpl. eauto.
Qed.
End sorted_facts.

(** ** The orders built by the ranker *)

Lemma order_id_pops ts l r res :
  order_id ts l r = Ok res →
  ∃ rest, l ++ r ≡ₚ res ++ rest ∧ length res = length ts.
Proof.
  revert l r res; induction ts as [|t ts IH]; simpl; intros l r res H.
  - inv_ok. by exists (l ++ r).
  - destruct (bool_decide (t ∈ l)).
    + inv_bind H. destruct a as [x l']. inv_bind H. inv_ok.
      apply pop_Ok in Ha as ->. apply IH in Ha0 as (rest & HP & Hlen).
      exists rest. split; [|simpl; by f_equal].
      rewrite <-(assoc_L (++)). simpl. rewrite <-Permutation_middle.
      simpl. by f_equiv.
    + inv_bind H. destruct a as [x r']. inv_bind H. inv_ok.
      apply pop_Ok in Ha as ->. apply IH in Ha0 as (rest & HP & Hlen).
      exists rest. split; [|simpl; by f_equal].
      rewrite (assoc_L (++)). rewrite <-Permutation_cons_append.
      simpl. by f_equiv.
Qed.

Lemma order_side_pops ts l r res :
  order_side ts l r = Ok res →
  ∃ rest, l ++ r ≡ₚ res ++ rest ∧ length res = length ts.
Proof.
  revert l r res; induction ts as [|t ts IH]; simpl; intros l r res H.
  - inv_ok. by exists (l ++ r).
  - destruct (bool_decide (l ≠ [])).
    + inv_bind H. destruct a as [x l']. inv_bind H. inv_ok.
      apply pop_Ok in Ha as ->. apply IH in Ha0 as (rest & HP & Hlen).
      exists rest. split; [|simpl; by f_equal].
      rewrite <-(assoc_L (++)). simpl. rewrite <-Permutation_middle.
      simpl. by f_equiv.
    + inv_bind H. destruct a as [x r']. inv_bind H. inv_ok.
      apply pop_Ok in Ha as ->. apply IH in Ha0 as (rest & HP & Hlen).
      exists rest. split; [|simpl; by f_equal].
      rewrite (assoc_L (++)). rewrite <-Permutation_cons_append.
      simpl. by f_equiv.
Qed.

Lemma pops_all {A} (l res rest ts : list A) :
  l ≡ₚ res ++ rest → length res = length ts → length ts = length l →
  res ≡ₚ l.
Proof.
  intros HP H1 H2. apply Permutation_length in HP as Hlen.
  rewrite length_app in Hlen.
  assert (rest = []) as -> by (apply nil_length_inv; lia).
  by rewrite app_nil_r in HP.
Qed.

Lemma order_alternate_perm l r : order_alternate l r ≡ₚ l ++ r.
Proof.
  unfold order_alternate, chain_pairs.
  revert r; induction l as [|x l IH]; intros r.
  - simpl. induction r as [|y r IHr]; simpl; [done|]. by f_equiv.
  - destruct r as [|y r]; simpl.
    + f_equiv. apply (IH []).
    + f_equiv. rewrite IH. apply Permutation_middle.
Qed.

(** ** The targets of a head *)

Lemma enumerate_lookup {A} (l : list A) (i : nat) :
  enumerate l !! i = (λ x, (Z.of_nat i, x)) <$> l !! i.
Proof. unfold enumerate. by rewrite list_lookup_imap. Qed.

Lemma enumerate_fst {A} (l : list A) :
  (enumerate l).*1 = Z.of_nat <$> seq 0 (length l).
Proof.
  apply list_eq. intros i. rewrite !list_lookup_fmap, enumerate_lookup.
  destruct (l !! i) as [x|] eqn:E; simpl.
  - pose proof (lookup_lt_Some _ _ _ E).
    by rewrite lookup_seq_lt.
  - apply lookup_ge_None in E. by rewrite lookup_seq_ge.
Qed.

Lemma elem_of_enumerate {A} (l : list A) p :
  p ∈ enumerate l ↔ ∃ i : nat, p.1 = Z.of_nat i ∧ l !! i = Some p.2.
Proof.
  rewrite list_elem_of_lookup. split.
  - intros [i Hi]. rewrite enumerate_lookup in Hi.
    destruct (l !! i) as [x|] eqn:E; simplify_eq/=. eauto.
  - intros (i & H1 & H2). exists i. rewrite enumerate_lookup, H2.
    destruct p; simpl in *. by subst.
Qed.

Lemma NoDup_enumerate_filter {A} (l : list A) (P : Z * A → Prop)
    `{∀ p, Decision (P p)} :
  NoDup (filter P (enumerate l)).*1.
Proof.
  apply (sublist_NoDup _ (enumerate l).*1).
  - rewrite enumerate_fst. apply NoDup_fmap_2; [apply _|apply NoDup_seq].
  - apply fmap_sublist, sublist_filter.
Qed.

Lemma elem_of_targets dtree head x :
  x ∈ targets_of dtree head ↔
  ∃ i : nat, x = Z.of_nat i ∧ heads dtree !! i = Some head.
Proof.
  unfold targets_of. rewrite list_elem_of_fmap. split.
  - intros ([y hd] & -> & Hin). apply list_elem_of_filter in Hin as [Hp Hin].
    apply elem_of_enumerate in Hin as (i & Hi & Hl). simpl in *. subst. eauto.
  - intros (i & -> & Hl). exists (Z.of_nat i, head). split; [done|].
    apply list_elem_of_filter. split; [done|].
    apply elem_of_enumerate. eauto.
Qed.

Lemma NoDup_targets dtree head : NoDup (targets_of dtree head).
Proof. apply NoDup_enumerate_filter. Qed.

Lemma order_targets_perm dtree head strategy res :
  order_targets dtree head strategy = Ok res →
  res ≡ₚ targets_of dtree head.
Proof.
  unfold order_targets. intros H.
  inv_bind H. rename a into sorted_nodes.
  inv_bind H. rename a into centre.
  apply sorted_perm in Ha. apply list_index_Ok in Ha0 as [Hsplit _].
  set (left_ := take centre sorted_nodes) in *.
  set (right_ := reverse (drop (S centre) sorted_nodes)) in *.
  assert (left_ ++ right_ ≡ₚ targets_of dtree head) as Hlr.
  { rewrite Hsplit in Ha. rewrite <-Permutation_middle in Ha.
    apply Permutation_cons_inv in Ha. rewrite <-Ha.
    unfold right_. by rewrite reverse_Permutation. }
  assert (length (targets_of dtree head) = length (left_ ++ right_)) as Hlen.
  { by rewrite Hlr. }
  repeat match type of H with
    | (if ?b then _ else _) = _ => destruct b
    end.
  - apply order_id_pops in H as (rest & HP & Hl).
    rewrite <-Hlr. eapply pops_all; eauto.
  - apply order_side_pops in H as (rest & HP & Hl).
    rewrite <-Hlr. eapply pops_all; eauto.
  - apply order_side_pops in H as (rest & HP & Hl).
    rewrite <-Hlr, (comm (++) left_). eapply pops_all; eauto.
    by rewrite Hlen, !length_app, Nat.add_comm.
  - inv_ok. by rewrite order_alternate_perm, !reverse_Permutation.
  - inv_ok. rewrite order_alternate_perm, !reverse_Permutation.
    by rewrite (comm (++)).
  - inv_bind H. by apply sorted_perm in H.
  - inv_bind H. by apply sorted_perm in H.
  - destruct (sent_idx dtree) as [sents|]; [|done].
    repeat match type of H with
      | (if ?b then _ else _) = _ => destruct b
      end; try done; inv_bind H; by apply sorted_perm in H.
Qed.

(** ** The array of ranks *)

Lemma py_setitem_Ok {A} (l l' : list A) i x :
  py_setitem l i x = Ok l' → 0 ≤ i →
  (Z.to_nat i < length l)%nat ∧ l' = <[Z.to_nat i := x]> l.
Proof.
  unfold py_setitem. intros H Hi.
  rewrite (bool_decide_eq_false_2 (i < 0)) in H by lia.
  inv_ok. apply bool_decide_eq_true in E. split; [lia|done].
Qed.

Lemma update_ranks_spec res : ∀ i rks rks',
  NoDup res → (∀ x, x ∈ res → 0 ≤ x) →
  update_ranks i res rks = Ok rks' →
  length rks' = length rks ∧
  ranks_on rks' res = Some <$> seq i (length res) ∧
  (∀ j : nat, Z.of_nat j ∉ res → rks' !! j = rks !! j).
Proof.
  induction res as [|tgt rest IH]; simpl; intros i rks rks' Hnd Hpos H.
  - inv_ok. done.
  - inv_bind H. rename a into rks1.
    apply NoDup_cons in Hnd as [Hnotin Hnd].
    apply py_setitem_Ok in Ha as [Hlt ->]; [|apply Hpos; by left].
    apply IH in H as (Hlen & Hon & Hother); [|done|].
    2:{ intros x Hx. apply Hpos. by right. }
    rewrite length_insert in Hlen. split; [done|]. split.
    + f_equal; [|done].
      rewrite Hother.
      * by rewrite list_lookup_insert_eq.
      * rewrite Z2Nat.id; [done|]. apply Hpos. by left.
    + intros j Hj. apply not_elem_of_cons in Hj as [Hne Hj].
      rewrite Hother by done. apply list_lookup_insert_ne.
      assert (0 ≤ tgt) by (apply Hpos; by left). lia.
Qed.

Lemma ranks_on_ext rks rks' T :
  (∀ x, x ∈ T → rks' !! Z.to_nat x = rks !! Z.to_nat x) →
  ranks_on rks' T = ranks_on rks T.
Proof.
  intros H. unfold ranks_on. apply list_fmap_ext.
  intros i x Hx. apply H. eapply list_elem_of_lookup_2; eauto.
Qed.

Lemma rank_heads_spec strategy dtree hs : ∀ rks rks',
  NoDup hs →
  rank_heads strategy dtree hs rks = Ok rks' →
  length rks' = length rks ∧
  (∀ h, h ∈ hs → ranked_as strategy dtree rks' h) ∧
  (∀ (j : nat) h, heads dtree !! j = Some h → h ∉ hs → rks' !! j = rks !! j).
Proof.
  induction hs as [|h0 hs IH]; simpl; intros rks rks' Hnd H.
  - inv_ok. split; [done|]. split; [|done]. intros h Hh. inversion Hh.
  - inv_bind H. rename a into res. inv_bind H. rename a into rks1.
    apply NoDup_cons in Hnd as [Hnotin Hnd].
    apply order_targets_perm in Ha as Hperm.
    apply update_ranks_spec in Ha0 as (Hlen1 & Hon1 & Hother1).
    2:{ rewrite Hperm. apply NoDup_targets. }
    2:{ intros x Hx. rewrite Hperm in Hx.
        apply elem_of_targets in Hx as (i & -> & _). lia. }
    apply IH in H as (Hlen & Hdone & Hother); [|done].
    split; [congruence|]. split.
    + intros h Hh. apply elem_of_cons in Hh as [->|Hh]; [|by apply Hdone].
      exists res. split; [done|].
      rewrite (ranks_on_ext rks1); [done|].
      intros x Hx. rewrite Hperm in Hx.
      apply elem_of_targets in Hx as (i & -> & Hi).
      rewrite Nat2Z.id. eapply Hother; eauto.
    + intros j h Hj Hh. apply not_elem_of_cons in Hh as [Hne Hh].
      rewrite (Hother j h) by done. apply Hother1.
      intros Hin. rewrite Hperm in Hin.
      apply elem_of_targets in Hin as (i & Hi & Hl).
      apply Nat2Z.inj in Hi as <-. congruence.
Qed.

Lemma ranked_as_permutation strategy dtree rks h :
  ranked_as strategy dtree rks h →
  ranks_permutation rks (targets_of dtree h).
Proof.
  intros (res & Hres & Hon). apply order_targets_perm in Hres.
  unfold ranks_permutation, ranks_on in *. by rewrite <-Hres, Hon.
Qed.

Lemma predict_tree_ranked_as strategy dtree rks h :
  predict_tree strategy dtree = Ok rks →
  h ∈ drop 1 (heads dtree) →
  ranked_as strategy dtree rks h.
Proof.
  unfold predict_tree. intros H Hh.
  apply rank_heads_spec in H as (_ & Hdone & _); [|apply NoDup_remove_dups].
  apply Hdone. unfold unique_heads. by apply elem_of_remove_dups.
Qed.

(** The heads may be taken in any order: the ranks of the dependents of
    each head are a permutation of 0 .. |T|-1 whatever the order in which
    the set of heads is iterated. *)
Lemma rank_heads_any_order strategy dtree hs rks h :
  NoDup hs → (∀ x, x ∈ hs ↔ x ∈ drop 1 (heads dtree)) →
  rank_heads strategy dtree hs ((λ _, 0%nat) <$> heads dtree) = Ok rks →
  ranks_permutation rks (targets_of dtree h).
Proof.
  intros Hnodup Hhs H.
  apply rank_heads_spec in H as (Hlen & Hdone & Hother); [|done].
  destruct (decide (h ∈ hs)) as [Hin|Hnotin];
    [by eapply ranked_as_permutation, Hdone|].
  assert (∀ x, x ∈ targets_of dtree h → x = 0) as Hzero.
  { intros x Hx. apply elem_of_targets in Hx as (i & -> & Hi).
    destruct i as [|i]; [done|]. exfalso. apply Hnotin, Hhs.
    apply list_elem_of_lookup. exists i. by rewrite lookup_drop. }
  pose proof (NoDup_targets dtree h) as Hnd.
  assert (∀ x, x ∈ targets_of dtree h →
               ∃ i : nat, x = Z.of_nat i ∧ heads dtree !! i = Some h) as Hel.
  { intros x. apply elem_of_targets. }
  unfold ranks_permutation.
  destruct (targets_of dtree h) as [|x [|y l]]; [done| |].
  - destruct (Hel x) as (i & Hx & Hi); [by left|].
    rewrite (Hzero x) in Hx by (by left).
    assert (i = 0%nat) as -> by lia. rewrite (Hzero x) by (by left).
    unfold ranks_on. rewrite list_fmap_singleton.
    change (Z.to_nat 0) with 0%nat. rewrite (Hother 0%nat h) by done.
    rewrite list_lookup_fmap, Hi. done.
  - exfalso. apply NoDup_cons in Hnd as [Hx _]. apply Hx.
    rewrite (Hzero x), <-(Hzero y); [by left | right; by left | by left].
Qed.

Lemma predict_tree_permutation strategy dtree rks h :
  predict_tree strategy dtree = Ok rks →
  ranks_permutation rks (targets_of dtree h).
Proof.
  apply rank_heads_any_order; [apply NoDup_remove_dups|].
  intros x. apply elem_of_remove_dups.
Qed.

(** C1. Whenever [predict] returns, the ranks it gives to the dependents of
    any one head [h], the nodes [i] with [heads[i] == h], are the numbers
    0 .. |T|-1, each used once; this holds for every tree of the batch and
    every strategy. *)
Theorem ranker_predict_permutation (rk : InsideOutAttachmentRanker)
    (X : list RstDepTree) (Y : list (list nat)) (k : nat)
    (dtree : RstDepTree) (rks : list nat) (h : Z) :
  ranker_predict rk X = Ok Y →
  X !! k = Some dtree →
  Y !! k = Some rks →
  ranks_permutation rks (targets_of dtree h).
Proof.
  unfold ranker_predict. intros H HX HY.
  destruct (mapM_lookup _ _ _ _ _ H HX) as (rks' & HY' & Hp).
  rewrite HY in HY'. injection HY' as <-.
  by eapply predict_tree_permutation.
Qed.

Lemma ranker_predict_permutation_witness :
  ranks_permutation [0; 2; 0; 0; 1; 3; 4]%nat
    (targets_of (doc_tree [-1; 3; 3; 0; 3; 3; 3] [] []) 3).
Proof.
  apply (ranker_predict_permutation (mkRanker "lrlrlr")
           [doc_tree [-1; 3; 3; 0; 3; 3; 3] [] []]
           [[0; 2; 0; 0; 1; 3; 4]%nat] 0%nat); reflexivity.
Defined.

(** ** Ties between a left and a right dependent *)

Lemma sorted_two {A K} (leb : K → K → bool) (key : A → result K) x y kx ky :
  key x = Ok kx → key y = Ok ky →
  sorted leb key [x; y] = Ok (if leb kx ky then [x; y] else [y; x]).
Proof.
  intros Hx Hy. unfold sorted. simpl. rewrite Hx, Hy. simpl.
  by destruct (leb kx ky).
Qed.

Lemma order_targets_closest_lr dtree h res :
  order_targets dtree h "closest-lr" = Ok res →
  ∃ ph, py_getitem (idx dtree) h = Ok ph ∧
        sorted leb2 (closest_key dtree 2 1 ph) (targets_of dtree h) = Ok res.
Proof.
  unfold order_targets. intros H. inv_bind H. inv_bind H.
  rewrite (bool_decide_eq_false_2 ("closest-lr" = "id")) in H by done.
  rewrite (bool_decide_eq_false_2 ("closest-lr" = "lllrrr")) in H by done.
  rewrite (bool_decide_eq_false_2 ("closest-lr" = "rrrlll")) in H by done.
  rewrite (bool_decide_eq_false_2 ("closest-lr" = "lrlrlr")) in H by done.
  rewrite (bool_decide_eq_false_2 ("closest-lr" = "rlrlrl")) in H by done.
  rewrite (bool_decide_eq_false_2 ("closest-lr" = "closest-rl")) in H by done.
  rewrite (bool_decide_eq_true_2 ("closest-lr" = "closest-lr")) in H by done.
  inv_bind H. eauto.
Qed.

Lemma order_targets_closest_rl dtree h res :
  order_targets dtree h "closest-rl" = Ok res →
  ∃ ph, py_getitem (idx dtree) h = Ok ph ∧
        sorted leb2 (closest_key dtree 1 2 ph) (targets_of dtree h) = Ok res.
Proof.
  unfold order_targets. intros H. inv_bind H. inv_bind H.
  rewrite (bool_decide_eq_false_2 ("closest-rl" = "id")) in H by done.
  rewrite (bool_decide_eq_false_2 ("closest-rl" = "lllrrr")) in H by done.
  rewrite (bool_decide_eq_false_2 ("closest-rl" = "rrrlll")) in H by done.
  rewrite (bool_decide_eq_false_2 ("closest-rl" = "lrlrlr")) in H by done.
  rewrite (bool_decide_eq_false_2 ("closest-rl" = "rlrlrl")) in H by done.
  rewrite (bool_decide_eq_true_2 ("closest-rl" = "closest-rl")) in H by done.
  inv_bind H. eauto.
Qed.

Lemma closest_key_left dtree rc lc ph l pl :
  idx dtree !! l = Some pl → pl < ph →
  closest_key dtree rc lc ph l = Ok (ph - pl, lc).
Proof.
  intros Hl Hlt. unfold closest_key, py_getitem, side. rewrite Hl. simpl.
  rewrite bool_decide_eq_false_2 by lia. do 2 f_equal. lia.
Qed.

Lemma closest_key_right dtree rc lc ph r pr :
  idx dtree !! r = Some pr → ph < pr →
  closest_key dtree rc lc ph r = Ok (pr - ph, rc).
Proof.
  intros Hr Hlt. unfold closest_key, py_getitem, side. rewrite Hr. simpl.
  rewrite bool_decide_eq_true_2 by lia. do 2 f_equal. lia.
Qed.

Lemma two_targets_head dtree h l r :
  targets_of dtree h ≡ₚ [l; r] → h ∈ drop 1 (heads dtree).
Proof.
  intros HP. pose proof (NoDup_targets dtree h) as Hnd. rewrite HP in Hnd.
  assert (l ∈ targets_of dtree h) as Hl by (rewrite HP; by left).
  assert (r ∈ targets_of dtree h) as Hr by (rewrite HP; right; by left).
  apply elem_of_targets in Hl as (i & -> & Hi).
  apply elem_of_targets in Hr as (j & -> & Hj).
  apply NoDup_cons in Hnd as [Hne _].
  apply list_elem_of_lookup.
  destruct i as [|i]; [destruct j as [|j]|].
  - exfalso. apply Hne. by left.
  - exists j. by rewrite lookup_drop.
  - exists i. by rewrite lookup_drop.
Qed.

(** C7. A head [h] has exactly the two dependents [l] and [r], at the same
    distance on opposite sides of [h] (positions are those of [idx], the ones
    the code compares). Then 'closest-lr' ranks the left one first and the
    right one second, and 'closest-rl' the right one first and the left one
    second. *)
Theorem closest_tie_left_right (dtree : RstDepTree) (rks_lr rks_rl : list nat)
    (h l r pl ph pr : Z) :
  ranker_predict (mkRanker "closest-lr") [dtree] = Ok [rks_lr] →
  ranker_predict (mkRanker "closest-rl") [dtree] = Ok [rks_rl] →
  targets_of dtree h ≡ₚ [l; r] →
  idx dtree !! l = Some pl → idx dtree !! h = Some ph →
  idx dtree !! r = Some pr →
  pl < ph < pr → ph - pl = pr - ph →
  (rks_lr !! Z.to_nat l = Some 0%nat ∧ rks_lr !! Z.to_nat r = Some 1%nat) ∧
  (rks_rl !! Z.to_nat r = Some 0%nat ∧ rks_rl !! Z.to_nat l = Some 1%nat).
Proof.
  unfold ranker_predict. simpl. intros Hlr Hrl HT Hl Hh Hr Hside Hdist.
  inv_bind Hlr. inv_bind Hrl. inv_ok.
  pose proof (two_targets_head _ _ _ _ HT) as Hhead.
  pose proof (closest_key_left dtree 2 1 ph l pl Hl (proj1 Hside)) as Kl1.
  pose proof (closest_key_right dtree 2 1 ph r pr Hr (proj2 Hside)) as Kr1.
  pose proof (closest_key_left dtree 1 2 ph l pl Hl (proj1 Hside)) as Kl2.
  pose proof (closest_key_right dtree 1 2 ph r pr Hr (proj2 Hside)) as Kr2.
  rewrite <-Hdist in Kr1, Kr2.
  apply Permutation_sym, Permutation_length_2_inv in HT.
  split.
  - destruct (predict_tree_ranked_as _ _ _ h Ha Hhead) as (res & Hres & Hon).
    apply order_targets_closest_lr in Hres as (ph' & Hph & Hres).
    unfold py_getitem in Hph. rewrite Hh in Hph. inv_ok.
    assert (res = [l; r]) as ->.
    { destruct HT as [HT|HT]; rewrite HT in Hres.
      - rewrite (sorted_two _ _ _ _ _ _ Kl1 Kr1) in Hres.
        unfold leb2 in Hres. simpl in Hres.
        rewrite Z.ltb_irrefl, Z.eqb_refl in Hres. simpl in Hres. by inv_ok.
      - rewrite (sorted_two _ _ _ _ _ _ Kr1 Kl1) in Hres.
        unfold leb2 in Hres. simpl in Hres.
        rewrite Z.ltb_irrefl, Z.eqb_refl in Hres. simpl in Hres. by inv_ok. }
    unfold ranks_on in Hon. simpl in Hon. by inversion Hon.
  - destruct (predict_tree_ranked_as _ _ _ h Ha0 Hhead) as (res & Hres & Hon).
    apply order_targets_closest_rl in Hres as (ph' & Hph & Hres).
    unfold py_getitem in Hph. rewrite Hh in Hph. inv_ok.
    assert (res = [r; l]) as ->.
    { destruct HT as [HT|HT]; rewrite HT in Hres.
      - rewrite (sorted_two _ _ _ _ _ _ Kl2 Kr2) in Hres.
        unfold leb2 in Hres. simpl in Hres.
        rewrite Z.ltb_irrefl, Z.eqb_refl in Hres. simpl in Hres. by inv_ok.
      - rewrite (sorted_two _ _ _ _ _ _ Kr2 Kl2) in Hres.
        unfold leb2 in Hres. simpl in Hres.
        rewrite Z.ltb_irrefl, Z.eqb_refl in Hres. simpl in Hres. by inv_ok. }
    unfold ranks_on in Hon. simpl in Hon. by inversion Hon.
Qed.

Lemma closest_tie_left_right_witness :
  (([0; 0; 0; 1]%nat : list nat) !! Z.to_nat 1 = Some 0%nat ∧
   ([0; 0; 0; 1]%nat : list nat) !! Z.to_nat 3 = Some 1%nat) ∧
  (([0; 1; 0; 0]%nat : list nat) !! Z.to_nat 3 = Some 0%nat ∧
   ([0; 1; 0; 0]%nat : list nat) !! Z.to_nat 1 = Some 1%nat).
Proof.
  apply (closest_tie_left_right (doc_tree [-1; 2; 0; 2] [] [])
           [0; 0; 0; 1]%nat [0; 1; 0; 0]%nat 2 1 3 1 2 3);
    first [ reflexivity | lia ].
Defined.

(** ** The 'id' strategy *)

(** On the docstring's own example the comprehension of 'id' pops the
    empty right stack: after [l3] and [l2] took [l1] and [l2] from the left
    stack, [l1] is no longer found in it. *)
Lemma order_id_docstring_example :
  order_id [1; 2; 3; 4; 5; 6] [1; 4; 5] [3; 6; 2] = Raise IndexError.
Proof. reflexivity. Qed.

Lemma predict_id_docstring_raises :
  ranker_predict (mkRanker "id") [docstring_tree] = Raise IndexError.
Proof. reflexivity. Qed.

(** C4. Under 'id' the slots of the dependents, left or right as they are
    given, are to be filled inside out on each side; for the root 3 with
    the two left dependents 1 and 2 that is rank 0 for 2 and rank 1 for 1.
    The code raises instead: the farther dependent 1 pops the nearer one 2
    from the left stack, 2 is then no longer found in that stack and the
    empty right stack is popped. *)
Theorem predict_id_two_left_raises :
  ranker_predict (mkRanker "id") [two_left_tree] = Raise IndexError.
Proof. reflexivity. Qed.

(** The other strategies rank the same tree. *)
Lemma predict_lllrrr_two_left :
  ranker_predict (mkRanker "lllrrr") [two_left_tree] = Ok [[0; 1; 0; 0]%nat].
Proof. reflexivity. Qed.

(** ** The nuclearity classifier *)

Lemma mapM_map {A B} (f : A → result B) (g : A → B) l :
  (∀ x, x ∈ l → f x = Ok (g x)) → mapM f l = Ok (g <$> l).
Proof.
  induction l as [|x l IH]; simpl; intros H; [done|].
  rewrite H by (by left). simpl. rewrite IH; [done|].
  intros y Hy. apply H. by right.
Qed.

Lemma classifier_fit_lbls table clf0 clf :
  classifier_fit table clf0 = Ok clf → ∃ lbls, multinuc_lbls clf = Some lbls.
Proof.
  unfold classifier_fit. intros H.
  destruct (bool_decide (clf_strategy clf0 ∉ classifier_strategies)) eqn:E;
    [done|].
  apply bool_decide_eq_false in E. apply dec_stable in E.
  repeat case_bool_decide; inv_ok; simpl; eauto.
  exfalso. unfold classifier_strategies in E.
  repeat (apply elem_of_cons in E as [E|E]; [done|]). inversion E.
Qed.

(** C10. After [fit], [predict] returns for every tree one entry per entry
    of the tree's [labels], the one of the fake root at index 0 included,
    each computed by the same rule from the label at that index, and each
    either [NUC_N] or [NUC_S]. *)
Theorem classifier_predict_total (table : list (string * string))
    (clf0 clf : DummyNuclearityClassifier) (X : list RstDepTree) :
  classifier_fit table clf0 = Ok clf →
  ∃ lbls Y,
    multinuc_lbls clf = Some lbls ∧
    classifier_predict clf X = Ok Y ∧
    length Y = length X ∧
    ∀ (k : nat) dtree, X !! k = Some dtree →
      ∃ yi, Y !! k = Some yi ∧
            length yi = length (labels dtree) ∧
            (∀ (j : nat) rel, labels dtree !! j = Some rel →
                              yi !! j = Some (nuc_of lbls rel)) ∧
            Forall (λ v, v = NUC_N ∨ v = NUC_S) yi.
Proof.
  intros Hfit. destruct (classifier_fit_lbls _ _ _ Hfit) as [lbls Hl].
  exists lbls, ((λ dtree, nuc_of lbls <$> labels dtree) <$> X).
  split; [done|]. split; [|split].
  - unfold classifier_predict. apply mapM_map. intros dtree _.
    apply mapM_map. intros rel _. unfold predict_nuc. by rewrite Hl.
  - by rewrite length_fmap.
  - intros k dtree Hk. exists (nuc_of lbls <$> labels dtree).
    rewrite list_lookup_fmap, Hk. split; [done|].
    split; [by rewrite length_fmap|]. split.
    + intros j rel Hj. by rewrite list_lookup_fmap, Hj.
    + apply Forall_fmap, Forall_forall. intros rel _. simpl.
      unfold nuc_of. destruct (label_in rel lbls); auto.
Qed.

Lemma classifier_predict_total_witness :
  ∃ lbls Y,
    multinuc_lbls (mkClassifier "unamb_else_most_frequent"
                     (Some ["joint"; "same-unit"; "textual"])) = Some lbls ∧
    classifier_predict (mkClassifier "unamb_else_most_frequent"
                          (Some ["joint"; "same-unit"; "textual"]))
      [doc_tree [-1; 0; 1] [None; Some "ROOT"; Some "joint"] []] = Ok Y ∧
    length Y = length [doc_tree [-1; 0; 1] [None; Some "ROOT"; Some "joint"] []] ∧
    ∀ (k : nat) dtree,
      [doc_tree [-1; 0; 1] [None; Some "ROOT"; Some "joint"] []] !! k
        = Some dtree →
      ∃ yi, Y !! k = Some yi ∧
            length yi = length (labels dtree) ∧
            (∀ (j : nat) rel, labels dtree !! j = Some rel →
                              yi !! j = Some (nuc_of lbls rel)) ∧
            Forall (λ v, v = NUC_N ∨ v = NUC_S) yi.
Proof.
  apply (classifier_predict_total []
           (mkClassifier "unamb_else_most_frequent" None)).
  reflexivity.
Defined.

(** On the tree of the witness: the fake root and the root are satellites,
    the 'joint' dependent is a nucleus. *)
Lemma classifier_predict_example :
  classifier_predict (mkClassifier "unamb_else_most_frequent"
                        (Some ["joint"; "same-unit"; "textual"]))
    [doc_tree [-1; 0; 1] [None; Some "ROOT"; Some "joint"] []]
  = Ok [[NUC_S; NUC_S; NUC_N]].
Proof. reflexivity. Qed.

(** Without [fit] there is no [multinuc_lbls] to look a label up in. *)
Lemma classifier_predict_unfitted strategy dtree rel rest X :
  labels dtree = rel :: rest →
  classifier_predict (mkClassifier strategy None) (dtree :: X)
  = Raise AttributeError.
Proof. intros H. unfold classifier_predict. simpl. by rewrite H. Qed.

(** ** Unknown strategy names *)

(** The classifier's constructor accepts a name that no strategy has. *)
Lemma classifier_init_accepts_unknown :
  ("bogus" ∉ ranker_strategies) ∧ ("bogus" ∉ classifier_strategies) ∧
  ¬ rejected_at_construction "bogus".
Proof.
  split; [|split].
  - apply (bool_decide_unpack _). reflexivity.
  - apply (bool_decide_unpack _). reflexivity.
  - intros [_ H]. discriminate H.
Qed.

(** C8, amended. For a name that is no strategy of the ranker nor of the
    classifier, the ranker's constructor raises the error; the classifier's
    constructor returns a classifier and it is [fit] that raises the error,
    whatever the training table. *)
Theorem unknown_strategy_rejected (s : string) (table : list (string * string)) :
  s ∉ ranker_strategies →
  s ∉ classifier_strategies →
  ranker_init s = Raise ValueError ∧
  ∃ clf, classifier_init s = Ok clf ∧
         classifier_fit table clf = Raise ValueError.
Proof.
  intros Hr Hc. split.
  - unfold ranker_init. by rewrite bool_decide_eq_true_2.
  - eexists. split; [reflexivity|].
    unfold classifier_fit. simpl. by rewrite bool_decide_eq_true_2.
Qed.

Lemma unknown_strategy_rejected_witness :
  ranker_init "bogus" = Raise ValueError ∧
  ∃ clf, classifier_init "bogus" = Ok clf ∧
         classifier_fit [("joint", "NN")] clf = Raise ValueError.
Proof.
  apply (unknown_strategy_rejected "bogus" [("joint", "NN")]).
  - apply (bool_decide_unpack _). reflexivity.
  - apply (bool_decide_unpack _). reflexivity.
Defined.

(** ** connect_trees *)

Lemma leb2_total a b : leb2 a b = false → leb2 b a = true.
Proof.
  unfold leb2. destruct a as [a1 a2], b as [b1 b2]. simpl. intros H.
  apply orb_false_iff in H as [H1 H2]. apply Z.ltb_ge in H1.
  destruct (Z.eqb_spec a1 b1) as [->|Hne]; simpl in H2.
  - apply Z.leb_gt in H2. rewrite Z.eqb_refl. simpl.
    apply orb_true_iff. right. apply Z.leb_le. lia.
  - apply orb_true_iff. left. apply Z.ltb_lt. lia.
Qed.

Lemma span_le_total a b : span_le a b = false → span_le b a = true.
Proof. apply leb2_total. Qed.

Lemma connect_trees_Ok src tgt rel nuc :
  overlaps (tp_span src) (tp_span tgt) = false →
  connect_trees src tgt rel nuc =
  Ok (mkTreeParts (tp_edu src)
        ((tp_edu_span src).1 `min` (tp_edu_span tgt).1,
         (tp_edu_span src).2 `max` (tp_edu_span tgt).2)
        (merge (tp_span src) (tp_span tgt)) rel
        (if span_le (tp_span src) (tp_span tgt)
         then [parts_to_tree NUC_N src; parts_to_tree nuc tgt]
         else [parts_to_tree nuc tgt; parts_to_tree NUC_N src])).
Proof.
  intros H. unfold connect_trees. rewrite H.
  destruct (span_le (tp_span src) (tp_span tgt)); simpl; [done|].
  by rewrite Z.min_comm, Z.max_comm.
Qed.

Lemma connect_trees_inv src tgt rel nuc res :
  connect_trees src tgt rel nuc = Ok res →
  overlaps (tp_span src) (tp_span tgt) = false.
Proof.
  unfold connect_trees.
  by destruct (overlaps (tp_span src) (tp_span tgt)).
Qed.



(** The satellite 1 precedes its head 2 in the text: it becomes the left
    child, the head the right child and the nucleus. *)
Lemma connect_trees_example :
  connect_trees (mk_leaf (unit_at 2)) (mk_leaf (unit_at 1)) (Some "R") NUC_S
  = Ok (mkTreeParts (unit_at 2) (1, 2) (mkSpan 10 25) (Some "R")
          [Tree (mkNode NUC_S (1, 1) (mkSpan 10 15) (Some "leaf"))
             [Leaf (unit_at 1)];
           Tree (mkNode NUC_N (2, 2) (mkSpan 20 25) (Some "leaf"))
             [Leaf (unit_at 2)]]).
Proof. reflexivity. Qed.

(** Overlapping spans are an error. *)
Lemma connect_trees_overlap src tgt rel nuc :
  overlaps (tp_span src) (tp_span tgt) = true →
  connect_trees src tgt rel nuc = Raise RstDtException.
Proof. intros H. unfold connect_trees. by rewrite H. Qed.

(** ** The number of real roots *)

(** C6. A tree whose number of real roots is not one, none or several, is
    not converted: [deptree_to_simple_rst_tree] raises [RstDtException] and
    returns no tree. *)
Theorem convert_requires_one_root (fuel : nat) (dtree : RstDepTree) :
  length (real_roots_idx dtree) ≠ 1%nat →
  deptree_to_simple_rst_tree fuel dtree = Raise RstDtException ∧
  ∀ t, deptree_to_simple_rst_tree fuel dtree ≠ Ok t.
Proof.
  intros H. unfold deptree_to_simple_rst_tree.
  rewrite bool_decide_eq_false_2 by done. split; [done|]. by intros t.
Qed.

Lemma convert_requires_one_root_witness :
  deptree_to_simple_rst_tree 5 two_roots_tree = Raise RstDtException ∧
  ∀ t, deptree_to_simple_rst_tree 5 two_roots_tree ≠ Ok t.
Proof.
  apply (convert_requires_one_root 5 two_roots_tree).
  vm_compute. lia.
Defined.

(** A tree is returned only when there is exactly one real root. *)
Lemma convert_Ok_one_root fuel dtree t :
  deptree_to_simple_rst_tree fuel dtree = Ok t →
  ∃ r, real_roots_idx dtree = [r].
Proof.
  unfold deptree_to_simple_rst_tree. intros H.
  case_bool_decide as Hlen; [|done].
  destruct (real_roots_idx dtree) as [|r [|r' rs]]; simpl in Hlen; try lia.
  eauto.
Qed.

(** No real root at all: the only node is attached to itself. *)
Lemma convert_no_root :
  deptree_to_simple_rst_tree 5 (doc_tree [-1; 1] [None; Some "R"] [0; 0]%nat)
  = Raise RstDtException.
Proof. reflexivity. Qed.

(** ** Invariants of the walk *)

Lemma elem_of_dependents dtree gov x :
  x ∈ dependents dtree gov ↔
  ∃ i : nat, x = Z.of_nat i ∧ (0 < i)%nat ∧ heads dtree !! i = Some gov.
Proof.
  unfold dependents. rewrite list_elem_of_fmap. split.
  - intros ([y hd] & -> & Hin). apply list_elem_of_filter in Hin as [Hp Hin].
    apply elem_of_enumerate in Hin as (i & Hi & Hl). simpl in *.
    destruct Hp as [Hpos ->]. subst. exists i. split; [done|]. split; [lia|done].
  - intros (i & -> & Hpos & Hl). exists (Z.of_nat i, gov). split; [done|].
    apply list_elem_of_filter. split; [simpl; split; [lia|done]|].
    apply elem_of_enumerate. eauto.
Qed.

Lemma deps_dependents dtree gov l :
  deps dtree gov = Ok l → l ≡ₚ dependents dtree gov.
Proof. apply sorted_perm. Qed.

Lemma dependents_pos dtree gov x : x ∈ dependents dtree gov → 0 < x.
Proof. intros (i & -> & Hi & _)%elem_of_dependents. lia. Qed.

Section walk_invariant.
Context (dtree : RstDepTree) (Inv : TreeParts → Prop).
Hypothesis Inv_leaf : ∀ s e,
  0 < s → py_index (edus dtree) s = Ok e → Inv (mk_leaf e).
Hypothesis Inv_connect : ∀ src tgt rel nuc res,
  Inv src → Inv tgt → connect_trees src tgt rel nuc = Ok res → Inv res.

Lemma fold_walk_invariant (w : option TreeParts → Z → result TreeParts) :
  (∀ a s res, 0 < s → Inv a → w (Some a) s = Ok res → Inv res) →
  ∀ tgts src res,
    (∀ t, t ∈ tgts → 0 < t) → Inv src →
    fold_walk w src tgts = Ok res → Inv res.
Proof.
  intros Hw. induction tgts as [|tgt tgts IH]; simpl; intros src res Hpos Hsrc H.
  - by inv_ok.
  - inv_bind H. eapply IH; [| |exact H].
    + intros t Ht. apply Hpos. by right.
    + eapply Hw; [|exact Hsrc|exact Ha]. apply Hpos. by left.
Qed.

Lemma walk_invariant fuel : ∀ anc s res,
  0 < s → (∀ a, anc = Some a → Inv a) →
  walk fuel dtree anc s = Ok res → Inv res.
Proof.
  induction fuel as [|fuel IH]; simpl; intros anc s res Hs Hanc H; [done|].
  inv_bind H. rename a into rel. inv_bind H. rename a into nuc.
  inv_bind H. rename a into e. inv_bind H. rename a into tgts.
  inv_bind H. rename a into src.
  assert (Inv src) as Hsrc.
  { eapply fold_walk_invariant; [| | |exact Ha3].
    - intros a s' res' Hs' Hinv Hw. eapply IH; [exact Hs'| |exact Hw].
      intros a' Ha'. by injection Ha' as <-.
    - intros t Ht. apply deps_dependents in Ha2. rewrite Ha2 in Ht.
      by eapply dependents_pos.
    - by eapply Inv_leaf. }
  destruct anc as [a|]; [|by inv_ok].
  eapply Inv_connect; [|exact Hsrc|exact H]. by apply Hanc.
Qed.
End walk_invariant.

Lemma convert_walk fuel dtree t :
  deptree_to_simple_rst_tree fuel dtree = Ok t →
  ∃ r rparts, real_roots_idx dtree = [r] ∧ 0 < r ∧
              walk fuel dtree None r = Ok rparts ∧
              t = parts_to_tree NUC_R rparts.
Proof.
  intros H. destruct (convert_Ok_one_root _ _ _ H) as [r Hr].
  unfold deptree_to_simple_rst_tree in H. rewrite Hr in H. simpl in H.
  inv_bind H. inv_ok. exists r, a. split; [done|]. split; [|done].
  apply (dependents_pos dtree 0). unfold real_roots_idx in Hr. rewrite Hr.
  by left.
Qed.

Lemma all_nodes_parts P nuc parts :
  all_nodes P (parts_to_tree nuc parts) =
  match tp_kids parts with
  | [] => P (mkNode nuc (tp_edu_span parts) (tp_span parts) (tp_rel parts))
            [Leaf (tp_edu parts)]
  | ks => P (mkNode nuc (tp_edu_span parts) (tp_span parts) (tp_rel parts)) ks
          && forallb (all_nodes P) ks
  end.
Proof.
  unfold parts_to_tree. destruct (tp_kids parts); simpl; [|done].
  by rewrite !andb_true_r.
Qed.

Lemma all_nodes_pair P node x y :
  all_nodes P (Tree node [x; y]) = P node [x; y] && all_nodes P x && all_nodes P y.
Proof. simpl. by rewrite andb_true_r, andb_assoc. Qed.

Lemma parts_to_tree_pair nuc e es sp rel x y :
  parts_to_tree nuc (mkTreeParts e es sp rel [x; y]) =
  Tree (mkNode nuc es sp rel) [x; y].
Proof. reflexivity. Qed.


Lemma binary_ok_pair node a x b y :
  binary_ok node [parts_to_tree a x; parts_to_tree b y] =
  bool_decide (node_span node = merge (tp_span x) (tp_span y))
  && negb (overlaps (tp_span x) (tp_span y)).
Proof. reflexivity. Qed.

Lemma overlaps_comm a b : overlaps a b = overlaps b a.
Proof. unfold overlaps. apply bool_decide_ext. lia. Qed.

Lemma merge_comm a b : merge a b = merge b a.
Proof. unfold merge. f_equal; lia. Qed.


(** Every tree built by [walk] is binary, with spans that merge without
    overlap. *)
Lemma walk_binary dtree fuel s res nuc :
  0 < s → walk fuel dtree None s = Ok res →
  all_nodes binary_ok (parts_to_tree nuc res) = true.
Proof.
  intros Hs H. revert nuc.
  eapply (walk_invariant dtree
            (λ parts, ∀ nuc, all_nodes binary_ok (parts_to_tree nuc parts) = true));
    [| |exact Hs| |exact H]; [| |done].
  - intros s' e _ _ nuc. reflexivity.
  - intros src tgt rel nuc res' Hsrc Htgt Hc nuc'.
    apply connect_trees_inv in Hc as Hov.
    rewrite (connect_trees_Ok _ _ _ _ Hov) in Hc. inv_ok.
    destruct (span_le (tp_span src) (tp_span tgt));
      rewrite parts_to_tree_pair, all_nodes_pair, binary_ok_pair,
        Hsrc, Htgt, !andb_true_r; cbn [node_span].
    + rewrite Hov. by rewrite bool_decide_eq_true_2.
    + rewrite overlaps_comm, Hov.
      rewrite bool_decide_eq_true_2; [done|apply merge_comm].
Qed.

(** C3. In a tree returned by [deptree_to_simple_rst_tree] every node
    either holds one unit or has exactly two subtrees; in the second case
    its span is the merge of the spans of the two and these do not
    overlap. *)
Theorem convert_binary (fuel : nat) (dtree : RstDepTree) (t : SimpleRSTTree) :
  deptree_to_simple_rst_tree fuel dtree = Ok t →
  all_nodes binary_ok t = true.
Proof.
  intros H. apply convert_walk in H as (r & rparts & _ & Hr & Hw & ->).
  by eapply walk_binary.
Qed.

Lemma convert_binary_witness :
  ∃ t, deptree_to_simple_rst_tree 5 four_units_tree = Ok t ∧
       all_nodes binary_ok t = true.
Proof.
  eexists. split; [reflexivity|].
  apply (convert_binary 5 four_units_tree). reflexivity.
Defined.



(** ** The leaves of the tree *)

Lemma leaves_parts_to_tree nuc parts :
  leaves (parts_to_tree nuc parts) = leaves_parts parts.
Proof. reflexivity. Qed.

Lemma leaves_mk_leaf e : leaves_parts (mk_leaf e) = [e].
Proof. reflexivity. Qed.

Lemma leaves_connect a src rel nuc res :
  connect_trees a src rel nuc = Ok res →
  leaves_parts res =
  if span_le (tp_span a) (tp_span src)
  then leaves_parts a ++ leaves_parts src
  else leaves_parts src ++ leaves_parts a.
Proof.
  intros Hc. apply connect_trees_inv in Hc as Hov.
  rewrite (connect_trees_Ok _ _ _ _ Hov) in Hc. inv_ok.
  unfold leaves_parts at 1.
  destruct (span_le (tp_span a) (tp_span src));
    rewrite parts_to_tree_pair; cbn [leaves map concat];
    by rewrite app_nil_r, !leaves_parts_to_tree.
Qed.

Lemma leaves_connect_perm a src rel nuc res :
  connect_trees a src rel nuc = Ok res →
  leaves_parts res ≡ₚ leaves_parts a ++ leaves_parts src.
Proof.
  intros Hc. rewrite (leaves_connect _ _ _ _ _ Hc).
  destruct (span_le _ _); [done|]. apply (comm (++)).
Qed.

Lemma span_le_before a b :
  char_start a < char_end a → char_start b < char_end b →
  overlaps a b = false → span_le a b = true → char_end a ≤ char_start b.
Proof.
  unfold overlaps, span_le, leb2. simpl. intros Ha Hb Hov Hle.
  apply bool_decide_eq_false in Hov.
  apply orb_true_iff in Hle as [Hlt|Heq].
  - apply Z.ltb_lt in Hlt. lia.
  - apply andb_true_iff in Heq as [Heq Hle]. apply Z.eqb_eq in Heq.
    apply Z.leb_le in Hle. lia.
Qed.

Lemma text_ordered_concat l r sp :
  text_ordered l → text_ordered r →
  char_end (tp_span l) ≤ char_start (tp_span r) →
  sp = merge (tp_span l) (tp_span r) →
  StronglySorted before (leaves_parts l ++ leaves_parts r) ∧
  char_start sp < char_end sp ∧
  ∀ e, e ∈ leaves_parts l ++ leaves_parts r →
       char_start sp ≤ char_start (span e) ∧ char_end (span e) ≤ char_end sp.
Proof.
  intros [Hl1 Hl2 Hl3] [Hr1 Hr2 Hr3] Hlr ->. split; [|split].
  - apply StronglySorted_app_2; [|done..].
    intros x1 x2 H1 H2. apply Hl3 in H1. apply Hr3 in H2.
    unfold before. lia.
  - simpl. lia.
  - intros e [He|He]%elem_of_app; [apply Hl3 in He|apply Hr3 in He];
      simpl; lia.
Qed.

Lemma text_ordered_connect a src rel nuc res :
  text_ordered a → text_ordered src →
  connect_trees a src rel nuc = Ok res → text_ordered res.
Proof.
  intros Ha Hsrc Hc. pose proof (leaves_connect _ _ _ _ _ Hc) as Hl.
  apply connect_trees_inv in Hc as Hov.
  assert (tp_span res = merge (tp_span a) (tp_span src)) as Hsp.
  { rewrite (connect_trees_Ok _ _ _ _ Hov) in Hc. by inv_ok. }
  pose proof (to_nonempty _ Ha) as Hna.
  pose proof (to_nonempty _ Hsrc) as Hns.
  destruct (span_le (tp_span a) (tp_span src)) eqn:E.
  - destruct (text_ordered_concat a src (tp_span res)) as (H1 & H2 & H3);
      [done|done| |done|].
    + by apply span_le_before.
    + split; [by rewrite Hl|done|by rewrite Hl].
  - destruct (text_ordered_concat src a (tp_span res)) as (H1 & H2 & H3);
      [done|done| |by rewrite merge_comm|].
    + apply span_le_before; [done|done|by rewrite overlaps_comm|].
      by apply span_le_total.
    + split; [by rewrite Hl|done|by rewrite Hl].
Qed.

Lemma py_index_drop1 {A} (l : list A) s e :
  0 < s → py_index l s = Ok e → e ∈ drop 1 l.
Proof.
  intros Hs H. apply py_index_Ok in H; [|lia].
  apply list_elem_of_lookup. exists (Z.to_nat s - 1)%nat.
  rewrite lookup_drop. rewrite <-H. f_equal. lia.
Qed.

Lemma walk_text_ordered dtree fuel s res :
  (∀ e, e ∈ drop 1 (edus dtree) → char_start (span e) < char_end (span e)) →
  0 < s → walk fuel dtree None s = Ok res → text_ordered res.
Proof.
  intros Hwf Hs H.
  eapply (walk_invariant dtree text_ordered); [| |exact Hs| |exact H]; [| |done].
  - intros s' e Hs' He. apply py_index_drop1 in He; [|done].
    apply Hwf in He. split.
    + rewrite leaves_mk_leaf. repeat constructor.
    + done.
    + rewrite leaves_mk_leaf. intros e' ->%list_elem_of_singleton. simpl.
      unfold text_span. lia.
  - intros src tgt rel nuc res'. apply text_ordered_connect.
Qed.

(** ** The nodes under the root *)

Lemma dependents_real dtree gov x :
  x ∈ dependents dtree gov → real_node dtree x.
Proof.
  intros (i & -> & Hi & Hl)%elem_of_dependents. exists i. split; [done|].
  apply lookup_lt_Some in Hl. lia.
Qed.

Lemma closed_nodes_app dtree l1 l2 :
  closed_nodes dtree l1 → closed_nodes dtree l2 → closed_nodes dtree (l1 ++ l2).
Proof.
  intros H1 H2 x [Hx|Hx]%elem_of_app.
  - destruct (H1 x Hx) as [Hr Hc]. split; [done|].
    intros c Hcx. apply elem_of_app. left. by apply Hc.
  - destruct (H2 x Hx) as [Hr Hc]. split; [done|].
    intros c Hcx. apply elem_of_app. right. by apply Hc.
Qed.

Lemma edu_at_index dtree s e :
  0 < s → py_index (edus dtree) s = Ok e → edu_at dtree s = e.
Proof.
  intros Hs H. apply py_index_Ok in H; [|lia]. unfold edu_at. by rewrite H.
Qed.

Section walk_nodes.
Context (dtree : RstDepTree).

Lemma fold_walk_nodes (w : option TreeParts → Z → result TreeParts) :
  (∀ a s res, real_node dtree s → w (Some a) s = Ok res →
              adds_subtree dtree (leaves_parts a) s res) →
  ∀ tgts src res,
    (∀ t, t ∈ tgts → real_node dtree t) →
    fold_walk w src tgts = Ok res →
    ∃ nodes, leaves_parts res ≡ₚ leaves_parts src ++ (edu_at dtree <$> nodes) ∧
             (∀ t, t ∈ tgts → t ∈ nodes) ∧ closed_nodes dtree nodes.
Proof.
  intros Hw. induction tgts as [|tgt tgts IH]; simpl; intros src res Hreal H.
  - inv_ok. exists []. split; [by rewrite app_nil_r|]. split.
    + intros t Ht. inversion Ht.
    + intros x Hx. inversion Hx.
  - inv_bind H. rename a into src'.
    apply Hw in Ha as (nodes1 & HP1 & Hin1 & Hcl1); [|apply Hreal; by left].
    apply IH in H as (nodes2 & HP2 & Hin2 & Hcl2);
      [|intros t Ht; apply Hreal; by right].
    exists (nodes1 ++ nodes2). split; [|split].
    + rewrite HP2, HP1, fmap_app. by rewrite (assoc_L (++)).
    + intros t [->|Ht]%elem_of_cons; apply elem_of_app; [by left|].
      right. by apply Hin2.
    + by apply closed_nodes_app.
Qed.

Lemma walk_nodes fuel : ∀ anc s res,
  real_node dtree s →
  walk fuel dtree anc s = Ok res →
  adds_subtree dtree (from_option leaves_parts [] anc) s res.
Proof.
  induction fuel as [|fuel IH]; simpl; intros anc s res Hs H; [done|].
  inv_bind H. rename a into rel. inv_bind H. rename a into nuc.
  inv_bind H. rename a into e. inv_bind H. rename a into tgts.
  inv_bind H. rename a into src.
  apply deps_dependents in Ha2 as Hdeps.
  assert (0 < s) as Hpos by (destruct Hs as (i & -> & Hi); lia).
  eapply fold_walk_nodes in Ha3 as (nodes & HP & Hin & Hcl).
  2:{ intros a s' res' Hs' Hw'. by apply (IH (Some a)). }
  2:{ intros t Ht. rewrite Hdeps in Ht. by eapply dependents_real. }
  assert (leaves_parts src ≡ₚ edu_at dtree <$> (s :: nodes)) as Hsrc.
  { rewrite HP, leaves_mk_leaf. simpl.
    by rewrite (edu_at_index _ _ _ Hpos Ha1). }
  assert (closed_nodes dtree (s :: nodes)) as Hclosed.
  { intros x [->|Hx]%elem_of_cons.
    - split; [done|]. intros c Hc. right. apply Hin. by rewrite Hdeps.
    - destruct (Hcl x Hx) as [Hr Hc]. split; [done|].
      intros c Hcx. right. by apply Hc. }
  exists (s :: nodes). split; [|split; [by left|done]].
  destruct anc as [a|]; simpl.
  - rewrite (leaves_connect_perm _ _ _ _ _ H). by rewrite Hsrc.
  - inv_ok. by rewrite Hsrc.
Qed.
End walk_nodes.

Lemma attached_in_closed dtree r nodes x :
  real_roots_idx dtree = [r] → r ∈ nodes → closed_nodes dtree nodes →
  attached dtree x → x ∈ nodes.
Proof.
  intros Hroots Hr Hcl. induction 1 as [i Hi Hh|i h Hi Hh _ IH].
  - assert (Z.of_nat i ∈ real_roots_idx dtree) as Hin.
    { apply elem_of_dependents. eauto. }
    rewrite Hroots in Hin. by apply list_elem_of_singleton in Hin as ->.
  - destruct (Hcl h IH) as [_ Hc]. apply Hc.
    apply elem_of_dependents. eauto.
Qed.

Lemma StronglySorted_before_NoDup (l : list EDU) :
  StronglySorted before l →
  (∀ e, e ∈ l → char_start (span e) < char_end (span e)) →
  NoDup l.
Proof.
  induction 1 as [|x l Hl IH Hx]; intros Hne; [constructor|].
  constructor.
  - intros Hin. rewrite Forall_forall in Hx. specialize (Hx _ Hin).
    unfold before in Hx. specialize (Hne x ltac:(by left)). lia.
  - apply IH. intros e He. apply Hne. by right.
Qed.

Lemma fmap_lookup_seq {A} (d : A) (l : list A) (k : nat) :
  (λ i : nat, default d (l !! i)) <$> seq k (length l - k) = drop k l.
Proof.
  apply list_eq. intros i. rewrite list_lookup_fmap, lookup_drop.
  destruct (decide (i < length l - k)%nat) as [Hlt|Hge].
  - rewrite lookup_seq_lt by done. simpl.
    destruct (lookup_lt_is_Some_2 l (k + i)) as [x Hx]; [lia|].
    by rewrite Hx.
  - rewrite lookup_seq_ge by lia. simpl. symmetry.
    apply lookup_ge_None. lia.
Qed.

(** ** Sorting the units by position *)

Lemma insert_key_sorted {A} (x : Z * A) l :
  StronglySorted (λ p q : Z * A, p.1 ≤ q.1) l →
  StronglySorted (λ p q : Z * A, p.1 ≤ q.1) (insert_key Z.leb x l).
Proof.
  induction 1 as [|y l Hl IH Hy]; simpl.
  - repeat constructor.
  - destruct (Z.leb_spec x.1 y.1) as [Hle|Hgt].
    + constructor; [by constructor|]. constructor; [done|].
      eapply Forall_impl; [exact Hy|]. simpl. intros z Hz. lia.
    + constructor; [done|]. rewrite insert_key_perm.
      constructor; [lia|done].
Qed.

Lemma stable_sort_sorted {A} (l : list (Z * A)) :
  StronglySorted (λ p q : Z * A, p.1 ≤ q.1) (stable_sort Z.leb l).
Proof.
  induction l as [|x l IH]; simpl; [constructor|].
  by apply insert_key_sorted.
Qed.

Lemma keyed_sorted_snd (l : list (Z * EDU)) :
  (∀ p, p ∈ l → p.1 = char_start (span p.2)) →
  StronglySorted (λ p q : Z * EDU, p.1 ≤ q.1) l →
  StronglySorted (λ a b, char_start (span a) ≤ char_start (span b)) l.*2.
Proof.
  intros Hkey. induction 1 as [|x l Hl IH Hx]; simpl; [constructor|].
  constructor.
  - apply IH. intros p Hp. apply Hkey. by right.
  - apply Forall_fmap, Forall_forall. intros q Hq. simpl.
    rewrite Forall_forall in Hx. specialize (Hx q Hq).
    rewrite <-(Hkey x), <-(Hkey q); [done|by right|by left].
Qed.

Lemma zip_keys (units : list EDU) p :
  p ∈ zip ((λ e, char_start (span e)) <$> units) units →
  p.1 = char_start (span p.2).
Proof.
  induction units as [|u units IH]; simpl.
  - inversion 1.
  - intros [->|Hin]%elem_of_cons; [done|]. by apply IH.
Qed.

Lemma sorted_by_start_Ok units :
  ∃ l, sorted_by_start units = Ok l ∧ l ≡ₚ units ∧
       StronglySorted (λ a b, char_start (span a) ≤ char_start (span b)) l.
Proof.
  unfold sorted_by_start, sorted.
  rewrite (mapM_map _ (λ e, char_start (span e))) by done. simpl.
  eexists. split; [reflexivity|]. split.
  - rewrite stable_sort_perm. rewrite snd_zip; [done|].
    by rewrite length_fmap.
  - apply keyed_sorted_snd; [|apply stable_sort_sorted].
    intros p Hp. rewrite stable_sort_perm in Hp. by apply (zip_keys units).
Qed.

Lemma StronglySorted_weaken {A} (R R' : relation A) (l : list A) :
  StronglySorted R l →
  (∀ a b, a ∈ l → b ∈ l → R a b → R' a b) →
  StronglySorted R' l.
Proof.
  induction 1 as [|x l Hl IH Hx]; intros HR; [constructor|].
  constructor.
  - apply IH. intros a b Ha Hb. apply HR; by right.
  - rewrite Forall_forall in *. intros y Hy.
    apply HR; [by left|by right|by apply Hx].
Qed.

Lemma before_same_start (l : list EDU) x y :
  StronglySorted before l →
  (∀ e, e ∈ l → char_start (span e) < char_end (span e)) →
  x ∈ l → y ∈ l → char_start (span x) = char_start (span y) → x = y.
Proof.
  induction 1 as [|z l Hl IH Hz]; intros Hne Hx Hy Heq; [inversion Hx|].
  rewrite Forall_forall in Hz. unfold before in Hz.
  pose proof (Hne z ltac:(by left)) as Hnz.
  apply elem_of_cons in Hx as [->|Hx]; apply elem_of_cons in Hy as [->|Hy].
  - done.
  - specialize (Hz y Hy). lia.
  - specialize (Hz x Hx). lia.
  - apply IH; [|done..]. intros e He. apply Hne. by right.
Qed.

(** A list of non-empty units that follow each other in the text is the
    result of sorting any of its permutations by position. *)
Lemma sorted_by_start_unique (l units : list EDU) :
  StronglySorted before l →
  (∀ e, e ∈ l → char_start (span e) < char_end (span e)) →
  l ≡ₚ units →
  sorted_by_start units = Ok l.
Proof.
  intros Hl Hne HP.
  destruct (sorted_by_start_Ok units) as (l' & -> & HP' & Hl'). f_equal.
  eapply (StronglySorted_unique_strong
            (λ a b, char_start (span a) ≤ char_start (span b))).
  - intros x1 x2 H1 H2 H12 H21. rewrite HP', <-HP in H1.
    symmetry. eapply before_same_start; eauto. lia.
  - done.
  - eapply StronglySorted_weaken; [exact Hl|].
    intros a b Ha Hb Hab. unfold before in Hab.
    specialize (Hne a Ha). lia.
  - by rewrite HP'.
Qed.

Lemma real_node_unit dtree x :
  length (edus dtree) = length (heads dtree) →
  real_node dtree x → edu_at dtree x ∈ drop 1 (edus dtree).
Proof.
  intros Hlen (i & -> & Hi). unfold edu_at. rewrite Nat2Z.id.
  destruct (lookup_lt_is_Some_2 (edus dtree) i) as [e He]; [lia|].
  rewrite He. simpl. apply list_elem_of_lookup. exists (i - 1)%nat.
  rewrite lookup_drop, <-He. f_equal. lia.
Qed.

Lemma units_of_real_nodes dtree :
  length (edus dtree) = length (heads dtree) →
  edu_at dtree <$> (Z.of_nat <$> seq 1 (length (heads dtree) - 1))
  = drop 1 (edus dtree).
Proof.
  intros Hlen. rewrite <-list_fmap_compose, <-Hlen.
  rewrite <-(fmap_lookup_seq lpad). apply list_fmap_ext.
  intros _ i _. simpl. unfold edu_at. by rewrite Nat2Z.id.
Qed.

(** C2. For a well-formed tree, the leaves of the tree returned by
    [deptree_to_simple_rst_tree], from left to right, are the units of the
    input (all but the padding of the fake root), each as many times as it
    is in the input, one after the other in the text: they are the units
    sorted by position. *)
Theorem convert_leaves (fuel : nat) (dtree : RstDepTree) (t : SimpleRSTTree) :
  well_formed dtree →
  deptree_to_simple_rst_tree fuel dtree = Ok t →
  leaves t ≡ₚ drop 1 (edus dtree) ∧
  StronglySorted before (leaves t) ∧
  sorted_by_start (drop 1 (edus dtree)) = Ok (leaves t).
Proof.
  intros [Hlen Hatt Hspans] H.
  apply convert_walk in H as (r & rparts & Hroots & Hr & Hw & ->).
  rewrite leaves_parts_to_tree.
  pose proof (walk_text_ordered _ _ _ _ Hspans Hr Hw) as [Hsorted _ _].
  assert (real_node dtree r) as Hreal.
  { apply (dependents_real dtree 0). unfold real_roots_idx in Hroots.
    rewrite Hroots. by left. }
  destruct (walk_nodes dtree fuel None r rparts Hreal Hw)
    as (nodes & HP & Hin & Hcl). simpl in HP.
  assert (∀ e, e ∈ leaves_parts rparts →
               char_start (span e) < char_end (span e)) as Hne.
  { intros e He. rewrite HP in He.
    apply list_elem_of_fmap in He as (x & -> & Hx).
    apply Hspans, real_node_unit; [done|]. by apply Hcl. }
  assert (NoDup nodes) as Hnd.
  { apply (NoDup_fmap_1 (edu_at dtree)). rewrite <-HP.
    by apply StronglySorted_before_NoDup. }
  assert (nodes ≡ₚ Z.of_nat <$> seq 1 (length (heads dtree) - 1)) as Hnodes.
  { apply NoDup_Permutation; [done| |].
    - apply NoDup_fmap_2; [apply _|apply NoDup_seq].
    - intros x. split.
      + intros Hx. destruct (Hcl x Hx) as [(i & -> & Hi) _].
        apply list_elem_of_fmap_2, elem_of_seq. lia.
      + intros (i & -> & Hi%elem_of_seq)%list_elem_of_fmap.
        eapply attached_in_closed; eauto. apply Hatt. lia. }
  assert (leaves_parts rparts ≡ₚ drop 1 (edus dtree)) as Hperm.
  { by rewrite HP, Hnodes, units_of_real_nodes. }
  split; [done|]. split; [done|].
  by apply sorted_by_start_unique.
Qed.

Lemma four_units_well_formed : well_formed four_units_tree.
Proof.
  assert (attached four_units_tree (Z.of_nat 2)) as Hroot.
  { apply attached_root; [lia|reflexivity]. }
  split.
  - reflexivity.
  - intros i Hi. simpl in Hi.
    assert (i = 1 ∨ i = 2 ∨ i = 3 ∨ i = 4)%nat as Hcases by lia.
    destruct Hcases as [-> | [-> | [-> | ->] ] ].
    + apply (attached_step _ 1 2); [lia|reflexivity|exact Hroot].
    + exact Hroot.
    + apply (attached_step _ 3 2); [lia|reflexivity|exact Hroot].
    + apply (attached_step _ 4 2); [lia|reflexivity|exact Hroot].
  - intros e He. simpl in He.
    repeat (apply elem_of_cons in He as [->|He]; [simpl; lia|]).
    inversion He.
Qed.

Lemma convert_leaves_witness :
  ∃ t, deptree_to_simple_rst_tree 5 four_units_tree = Ok t ∧
       leaves t ≡ₚ drop 1 (edus four_units_tree) ∧
       StronglySorted before (leaves t) ∧
       sorted_by_start (drop 1 (edus four_units_tree)) = Ok (leaves t).
Proof.
  eexists. split; [reflexivity|].
  apply (convert_leaves 5 four_units_tree).
  - exact four_units_well_formed.
  - reflexivity.
Defined.

(** The leaves of the four units' tree. *)
Lemma convert_leaves_example :
  ∃ t, deptree_to_simple_rst_tree 5 four_units_tree = Ok t ∧
       leaves t = [unit_at 1; unit_at 2; unit_at 3; unit_at 4].
Proof. eexists. split; reflexivity. Qed.

(** ** Fuel *)

Lemma fold_walk_mono (w w' : option TreeParts → Z → result TreeParts) :
  (∀ anc s res, w anc s = Ok res → w' anc s = Ok res) →
  ∀ tgts src res,
    fold_walk w src tgts = Ok res → fold_walk w' src tgts = Ok res.
Proof.
  intros Hw. induction tgts as [|tgt tgts IH]; simpl; intros src res H; [done|].
  inv_bind H. rewrite (Hw _ _ _ Ha). simpl. by apply IH.
Qed.

(** A result of [walk] does not depend on the bound on the depth that
    allowed it. *)
Lemma walk_fuel_mono dtree fuel : ∀ anc s res,
  walk fuel dtree anc s = Ok res → walk (S fuel) dtree anc s = Ok res.
Proof.
  induction fuel as [|fuel IH]; intros anc s res H; [done|].
  change (walk (S fuel) dtree anc s) with
    (rel ← py_index (labels dtree) s;
     nuc ← py_index (nucs dtree) s;
     edu ← py_index (edus dtree) s;
     ranked_targets ← deps dtree s;
     src ← fold_walk (walk fuel dtree) (mk_leaf edu) ranked_targets;
     match anc with
     | Some a => connect_trees a src rel nuc
     | None => Ok src
     end) in H.
  change (walk (S (S fuel)) dtree anc s) with
    (rel ← py_index (labels dtree) s;
     nuc ← py_index (nucs dtree) s;
     edu ← py_index (edus dtree) s;
     ranked_targets ← deps dtree s;
     src ← fold_walk (walk (S fuel) dtree) (mk_leaf edu) ranked_targets;
     match anc with
     | Some a => connect_trees a src rel nuc
     | None => Ok src
     end).
  inv_bind H. inv_bind H. inv_bind H. inv_bind H. inv_bind H.
  rewrite Ha, Ha0, Ha1, Ha2. cbn [bind].
  rewrite (fold_walk_mono _ _ IH _ _ _ Ha3). done.
Qed.

Lemma convert_fuel_mono dtree fuel t :
  deptree_to_simple_rst_tree fuel dtree = Ok t →
  deptree_to_simple_rst_tree (S fuel) dtree = Ok t.
Proof.
  unfold deptree_to_simple_rst_tree. intros H.
  case_bool_decide; [|done]. inv_bind H. inv_bind H. inv_ok.
  rewrite Ha. cbn [bind]. by rewrite (walk_fuel_mono _ _ _ _ _ Ha0).
Qed.

(** A cycle away from the root exhausts any bound: node 2 is its own
    head's head. *)
Lemma walk_cycle_no_result fuel :
  walk fuel (doc_tree [-1; 2; 1] [None; Some "a"; Some "b"] [0; 0; 0]%nat)
    None 1 = Raise RecursionLimit.
Proof.
  assert (∀ anc s, (s = 1 ∨ s = 2) →
            walk fuel (doc_tree [-1; 2; 1] [None; Some "a"; Some "b"]
                         [0; 0; 0]%nat) anc s = Raise RecursionLimit) as H.
  { induction fuel as [|fuel IH]; intros anc s Hs; [done|].
    destruct Hs as [-> | ->].
    - change (walk (S fuel) ?d anc 1) with
        (src ← fold_walk (walk fuel d) (mk_leaf (unit_at 1)) [2];
         match anc with
         | Some a => connect_trees a src (Some "a") NUC_S
         | None => Ok src
         end).
      simpl. rewrite IH; [done|by right].
    - change (walk (S fuel) ?d anc 2) with
        (src ← fold_walk (walk fuel d) (mk_leaf (unit_at 2)) [1];
         match anc with
         | Some a => connect_trees a src (Some "b") NUC_S
         | None => Ok src
         end).
      simpl. rewrite IH; [done|by left]. }
  apply H. by left.
Qed.

(** ** The worked scenario of four units *)

(** With 'id', the dependents of the root 2 are ranked 1, 3, 4. *)
Lemma four_units_ranks :
  ranker_predict (mkRanker "id") [four_units_tree] = Ok [[0; 0; 0; 1; 2]%nat].
Proof. reflexivity. Qed.

(** With these ranks the tree is built inside out: the top node carries
    the relation of the last dependent, the whole unit span and [NUC_R]. *)
Lemma four_units_convert :
  ∃ kids, deptree_to_simple_rst_tree 5
            (with_ranks four_units_tree [0; 0; 0; 1; 2]%nat)
          = Ok (Tree (mkNode NUC_R (1, 4) (mkSpan 10 45) (Some "R2")) kids).
Proof. eexists. reflexivity. Qed.

(** ** The strategies that always rank *)

Lemma py_index_total {A} (l : list A) i :
  - Z.of_nat (length l) ≤ i < Z.of_nat (length l) → ∃ x, py_index l i = Ok x.
Proof.
  intros Hi. unfold py_index.
  set (j := if bool_decide (i < 0) then Z.of_nat (length l) + i else i).
  assert (0 ≤ j < Z.of_nat (length l)) as Hj.
  { unfold j. case_bool_decide; lia. }
  rewrite bool_decide_eq_true_2 by done.
  destruct (lookup_lt_is_Some_2 l (Z.to_nat j)) as [x ->]; [lia|]. eauto.
Qed.

Lemma list_index_total x l : x ∈ l → ∃ c, list_index x l = Ok c.
Proof.
  intros Hx. unfold list_index.
  destruct (list_find_elem_of (λ y, y = x) l x Hx eq_refl) as [[c y] ->].
  eauto.
Qed.

Lemma pop_total {A} (l : list A) :
  l ≠ [] → ∃ x l', pop l = Ok (x, l') ∧ l = l' ++ [x].
Proof.
  intros Hl. destruct (last l) as [x|] eqn:E.
  - apply last_Some in E as [l' ->]. exists x, l'.
    by rewrite pop_snoc.
  - by apply last_None in E.
Qed.

Lemma order_side_total ts : ∀ l r,
  length ts = (length l + length r)%nat → ∃ res, order_side ts l r = Ok res.
Proof.
  induction ts as [|t ts IH]; simpl; intros l r Hlen; [eauto|].
  case_bool_decide as Hl.
  - destruct (pop_total l Hl) as (x & l' & -> & ->). simpl.
    rewrite length_app in Hlen. simpl in Hlen.
    destruct (IH l' r) as [res ->]; [lia|]. simpl. eauto.
  - subst l. simpl in Hlen.
    destruct (pop_total r) as (x & r' & -> & ->).
    { intros ->. simpl in Hlen. lia. }
    simpl. rewrite length_app in Hlen. simpl in Hlen.
    destruct (IH [] r') as [res ->]; [simpl; lia|]. simpl. eauto.
Qed.

Lemma order_targets_total dtree head strategy :
  strategy ∈ positional_strategies →
  (length (heads dtree) ≤ length (edus dtree))%nat →
  - Z.of_nat (length (edus dtree)) ≤ head < Z.of_nat (length (edus dtree)) →
  ∃ res, order_targets dtree head strategy = Ok res.
Proof.
  intros Hs Hlen Hhead. unfold order_targets.
  destruct (sorted_total Z.leb
              (λ x, e ← py_index (edus dtree) x; Ok (char_start (span e)))
              (head :: targets_of dtree head)) as [sorted_nodes Hsorted].
  { intros x [->|Hx]%elem_of_cons.
    - destruct (py_index_total (edus dtree) head Hhead) as [e ->].
      simpl. eauto.
    - apply elem_of_targets in Hx as (i & -> & Hi).
      apply lookup_lt_Some in Hi.
      destruct (py_index_total (edus dtree) (Z.of_nat i)) as [e ->]; [lia|].
      simpl. eauto. }
  rewrite Hsorted. cbn [bind]. apply sorted_perm in Hsorted as Hperm.
  destruct (list_index_total head sorted_nodes) as [centre Hc].
  { rewrite Hperm. by left. }
  rewrite Hc. cbn [bind]. apply list_index_Ok in Hc as [Hsplit _].
  set (left_ := take centre sorted_nodes) in *.
  set (right_ := reverse (drop (S centre) sorted_nodes)) in *.
  assert (length (targets_of dtree head) = (length left_ + length right_)%nat)
    as Hlr.
  { apply Permutation_length in Hperm. rewrite Hsplit in Hperm.
    rewrite length_app in Hperm. simpl in Hperm.
    unfold right_. rewrite length_reverse. fold left_ in Hperm. lia. }
  unfold positional_strategies in Hs.
  repeat (apply elem_of_cons in Hs as [->|Hs]); [| | | |inversion Hs].
  - rewrite (bool_decide_eq_false_2 ("lllrrr" = "id")) by done.
    rewrite (bool_decide_eq_true_2 ("lllrrr" = "lllrrr")) by done.
    by apply order_side_total.
  - rewrite (bool_decide_eq_false_2 ("rrrlll" = "id")) by done.
    rewrite (bool_decide_eq_false_2 ("rrrlll" = "lllrrr")) by done.
    rewrite (bool_decide_eq_true_2 ("rrrlll" = "rrrlll")) by done.
    apply order_side_total. lia.
  - rewrite (bool_decide_eq_false_2 ("lrlrlr" = "id")) by done.
    rewrite (bool_decide_eq_false_2 ("lrlrlr" = "lllrrr")) by done.
    rewrite (bool_decide_eq_false_2 ("lrlrlr" = "rrrlll")) by done.
    rewrite (bool_decide_eq_true_2 ("lrlrlr" = "lrlrlr")) by done.
    eauto.
  - rewrite (bool_decide_eq_false_2 ("rlrlrl" = "id")) by done.
    rewrite (bool_decide_eq_false_2 ("rlrlrl" = "lllrrr")) by done.
    rewrite (bool_decide_eq_false_2 ("rlrlrl" = "rrrlll")) by done.
    rewrite (bool_decide_eq_false_2 ("rlrlrl" = "lrlrlr")) by done.
    rewrite (bool_decide_eq_true_2 ("rlrlrl" = "rlrlrl")) by done.
    eauto.
Qed.

Lemma update_ranks_total res : ∀ i rks,
  (∀ x, x ∈ res → ∃ j : nat, x = Z.of_nat j ∧ (j < length rks)%nat) →
  ∃ rks', update_ranks i res rks = Ok rks' ∧ length rks' = length rks.
Proof.
  induction res as [|tgt rest IH]; simpl; intros i rks Hin; [eauto|].
  destruct (Hin tgt) as (j & -> & Hj); [by left|].
  rewrite py_setitem_nat by done. cbn [bind].
  destruct (IH (S i) (<[j:=i]> rks)) as (rks' & -> & Hlen).
  { intros x Hx. rewrite length_insert. apply Hin. by right. }
  exists rks'. split; [done|]. by rewrite Hlen, length_insert.
Qed.

Lemma rank_heads_total strategy dtree hs : ∀ rks,
  strategy ∈ positional_strategies →
  (length (heads dtree) ≤ length (edus dtree))%nat →
  (∀ h, h ∈ hs →
        - Z.of_nat (length (edus dtree)) ≤ h < Z.of_nat (length (edus dtree))) →
  length rks = length (heads dtree) →
  ∃ rks', rank_heads strategy dtree hs rks = Ok rks'.
Proof.
  induction hs as [|h hs IH]; simpl; intros rks Hs Hlen Hhs Hrks; [eauto|].
  destruct (order_targets_total dtree h strategy Hs Hlen) as [res Hres];
    [apply Hhs; by left|].
  rewrite Hres. cbn [bind]. apply order_targets_perm in Hres.
  destruct (update_ranks_total res 0%nat rks) as (rks1 & -> & Hlen1).
  { intros x Hx. rewrite Hres in Hx.
    apply elem_of_targets in Hx as (j & -> & Hj).
    apply lookup_lt_Some in Hj. exists j. split; [done|lia]. }
  cbn [bind]. apply IH; [done|done| |congruence].
  intros h' Hh'. apply Hhs. by right.
Qed.

(** With a unit for every node and every head, the strategies 'lllrrr',
    'rrrlll', 'lrlrlr' and 'rlrlrl' rank every tree. *)
Lemma predict_tree_total strategy dtree :
  strategy ∈ positional_strategies → units_for_heads dtree →
  ∃ rks, predict_tree strategy dtree = Ok rks.
Proof.
  intros Hs [Hlen Hheads]. unfold predict_tree.
  apply rank_heads_total; [done|done| |by rewrite length_fmap].
  intros h Hh. apply Hheads. unfold unique_heads in Hh.
  by rewrite elem_of_remove_dups in Hh.
Qed.

(** ** What 'id' does when it returns *)

Section order_id_interleaving.
Context (L0 : list Z).

(** A run that returns pops the left stack once for each of its items, and
    only on targets that are left dependents. *)
Lemma order_id_left_count ts : ∀ l r res,
  order_id ts l r = Ok res → (∀ x, x ∈ l → x ∈ L0) →
  length ts = (length l + length r)%nat →
  (length l ≤ length (filter (.∈ L0) ts))%nat.
Proof.
  induction ts as [|t ts IH]; simpl; intros l r res H Hl Hlen.
  - lia.
  - rewrite filter_cons. case_bool_decide as Ht.
    + inv_bind H. destruct a as [x l']. inv_bind H. inv_ok.
      apply pop_Ok in Ha as ->. rewrite length_app in *. simpl in *.
      apply IH in Ha0; [| |lia].
      2:{ intros y Hy. apply Hl, elem_of_app. by left. }
      destruct (decide (t ∈ L0)) as [|Hn]; simpl; [lia|].
      exfalso. by apply Hn, Hl.
    + inv_bind H. destruct a as [x r']. inv_bind H. inv_ok.
      apply pop_Ok in Ha as ->. rewrite length_app in *. simpl in *.
      apply IH in Ha0; [|done|lia].
      destruct (decide (t ∈ L0)); simpl; lia.
Qed.

(** When it returns, 'id' keeps the interleaving: a left dependent is put
    where a left dependent was, a right one where a right one was. *)
Lemma order_id_interleaving ts : ∀ l r res,
  order_id ts l r = Ok res →
  (∀ x, x ∈ l → x ∈ L0) → (∀ x, x ∈ r → x ∉ L0) →
  length ts = (length l + length r)%nat →
  length (filter (.∈ L0) ts) = length l →
  Forall2 (λ t x, t ∈ L0 ↔ x ∈ L0) ts res.
Proof.
  induction ts as [|t ts IH]; simpl; intros l r res H Hl Hr Hlen Hc.
  - inv_ok. constructor.
  - rewrite filter_cons in Hc. case_bool_decide as Ht.
    + inv_bind H. destruct a as [x l']. inv_bind H. inv_ok.
      apply pop_Ok in Ha as ->. rewrite length_app in *. simpl in *.
      assert (t ∈ L0) as HtL by (by apply Hl).
      assert (x ∈ L0) as HxL.
      { apply Hl, elem_of_app. right. by left. }
      destruct (decide (t ∈ L0)); [|done]. simpl in Hc.
      constructor; [done|]. eapply IH; [exact Ha0| |done|lia|lia].
      intros y Hy. apply Hl, elem_of_app. by left.
    + inv_bind H. destruct a as [x r']. inv_bind H. inv_ok.
      apply pop_Ok in Ha as ->. rewrite length_app in *. simpl in *.
      assert (x ∉ L0) as HxL.
      { apply Hr, elem_of_app. right. by left. }
      pose proof (order_id_left_count _ _ _ _ Ha0 Hl ltac:(lia)) as Hcount.
      destruct (decide (t ∈ L0)); simpl in Hc; [lia|].
      constructor; [done|]. eapply IH; [exact Ha0|done| |lia|done].
      intros y Hy. apply Hr, elem_of_app. by left.
Qed.
End order_id_interleaving.

(** * Further properties *)

(** ** The order of each positional strategy *)

Lemma list_index_middle x l r :
  x ∉ l → list_index x (l ++ x :: r) = Ok (length l).
Proof.
  intros Hx. unfold list_index.
  destruct (list_find (λ y, y = x) (l ++ x :: r)) as [[i y]|] eqn:E.
  - apply list_find_Some in E as (Hi & -> & Hbefore). f_equal.
    destruct (decide (i < length l)%nat) as [Hlt|Hge].
    + rewrite lookup_app_l in Hi by done.
      exfalso. apply Hx. by eapply list_elem_of_lookup_2.
    + destruct (decide (i = length l)) as [->|Hne]; [done|].
      exfalso. apply (Hbefore (length l) x); [|lia|done].
      by rewrite list_lookup_middle.
  - exfalso. apply list_find_None in E. rewrite Forall_forall in E.
    apply (E x); [|done]. apply elem_of_app. right. by left.
Qed.

Lemma drop_middle {A} (l : list A) x r :
  drop (S (length l)) (l ++ x :: r) = r.
Proof.
  rewrite cons_middle, (assoc_L (++)), drop_app_length'; [done|].
  rewrite length_app. simpl. lia.
Qed.

Lemma around_targets dtree head lio rio :
  around dtree head lio rio → lio ++ rio ≡ₚ targets_of dtree head.
Proof.
  intros [Hs _]. apply sorted_perm in Hs.
  rewrite <-Permutation_middle in Hs. apply Permutation_cons_inv in Hs.
  by rewrite <-Hs, reverse_Permutation.
Qed.

Lemma around_length dtree head lio rio :
  around dtree head lio rio →
  length (targets_of dtree head) = (length lio + length rio)%nat.
Proof.
  intros H. apply around_targets in H. by rewrite <-H, length_app.
Qed.

(** Under [around], what [order_targets] computes before it looks at the
    strategy: the stacks [left] and [right]. *)
Ltac enter_order Haround :=
  let Hs := fresh "Hs" in
  let Hh := fresh "Hh" in
  destruct Haround as [Hs Hh];
  unfold order_targets;
  change (λ x, bind (py_index (edus ?d) x) (λ e, Ok (char_start (span e))))
    with (start_key d);
  rewrite Hs; cbn [bind];
  rewrite list_index_middle by (by rewrite elem_of_reverse);
  cbn [bind];
  rewrite take_app_length, drop_middle.

Lemma order_side_all ts : ∀ l r,
  length ts = (length l + length r)%nat →
  order_side ts l r = Ok (reverse l ++ reverse r).
Proof.
  induction ts as [|t ts IH]; intros l r Hlen.
  - destruct l, r; simpl in *; try lia. done.
  - simpl. case_bool_decide as Hl.
    + destruct (pop_total l Hl) as (x & l' & -> & ->). cbn [bind].
      rewrite length_app in Hlen. simpl in Hlen.
      rewrite IH by lia. cbn [bind]. by rewrite reverse_snoc.
    + subst l. simpl in Hlen. destruct (pop_total r) as (x & r' & -> & ->).
      { intros ->. simpl in Hlen. lia. }
      cbn [bind]. rewrite length_app in Hlen. simpl in Hlen.
      rewrite IH by (simpl; lia). cbn [bind]. by rewrite reverse_snoc.
Qed.

Lemma interleave_nil_r l : interleave l [] = l.
Proof. by destruct l. Qed.

(** Zipping with padding, chaining and dropping the padding alternates
    the two lists. *)
Lemma order_alternate_interleave l : ∀ r,
  order_alternate l r = interleave l r.
Proof.
  unfold order_alternate, chain_pairs.
  induction l as [|x l IH]; intros r.
  - simpl. induction r as [|y r IHr]; simpl; [done|]. by f_equal.
  - destruct r as [|y r]; simpl.
    + f_equal. etrans; [apply (IH [])|apply interleave_nil_r].
    + do 2 f_equal. apply IH.
Qed.

Lemma order_targets_lllrrr dtree head lio rio :
  around dtree head lio rio →
  order_targets dtree head "lllrrr" = Ok (lio ++ rio).
Proof.
  intros H. pose proof (around_length _ _ _ _ H) as Hlen. enter_order H.
  rewrite (bool_decide_eq_false_2 ("lllrrr" = "id")) by done.
  rewrite (bool_decide_eq_true_2 ("lllrrr" = "lllrrr")) by done.
  rewrite order_side_all by (by rewrite !length_reverse).
  by rewrite !reverse_involutive.
Qed.

Lemma order_targets_rrrlll dtree head lio rio :
  around dtree head lio rio →
  order_targets dtree head "rrrlll" = Ok (rio ++ lio).
Proof.
  intros H. pose proof (around_length _ _ _ _ H) as Hlen. enter_order H.
  rewrite (bool_decide_eq_false_2 ("rrrlll" = "id")) by done.
  rewrite (bool_decide_eq_false_2 ("rrrlll" = "lllrrr")) by done.
  rewrite (bool_decide_eq_true_2 ("rrrlll" = "rrrlll")) by done.
  rewrite order_side_all by (rewrite !length_reverse; lia).
  by rewrite !reverse_involutive.
Qed.

Lemma order_targets_lrlrlr dtree head lio rio :
  around dtree head lio rio →
  order_targets dtree head "lrlrlr" = Ok (interleave lio rio).
Proof.
  intros H. enter_order H.
  rewrite (bool_decide_eq_false_2 ("lrlrlr" = "id")) by done.
  rewrite (bool_decide_eq_false_2 ("lrlrlr" = "lllrrr")) by done.
  rewrite (bool_decide_eq_false_2 ("lrlrlr" = "rrrlll")) by done.
  rewrite (bool_decide_eq_true_2 ("lrlrlr" = "lrlrlr")) by done.
  by rewrite !reverse_involutive, order_alternate_interleave.
Qed.

Lemma order_targets_rlrlrl dtree head lio rio :
  around dtree head lio rio →
  order_targets dtree head "rlrlrl" = Ok (interleave rio lio).
Proof.
  intros H. enter_order H.
  rewrite (bool_decide_eq_false_2 ("rlrlrl" = "id")) by done.
  rewrite (bool_decide_eq_false_2 ("rlrlrl" = "lllrrr")) by done.
  rewrite (bool_decide_eq_false_2 ("rlrlrl" = "rrrlll")) by done.
  rewrite (bool_decide_eq_false_2 ("rlrlrl" = "lrlrlr")) by done.
  rewrite (bool_decide_eq_true_2 ("rlrlrl" = "rlrlrl")) by done.
  by rewrite !reverse_involutive, order_alternate_interleave.
Qed.

Lemma ranked_as_order strategy dtree rks h res :
  ranked_as strategy dtree rks h →
  order_targets dtree h strategy = Ok res →
  ranked_in_order rks res.
Proof. intros (res' & Hres & Hon) H. rewrite H in Hres. by inv_ok. Qed.

Lemma ranker_predict_single rk dtree rks :
  ranker_predict rk [dtree] = Ok [rks] →
  predict_tree (rk_strategy rk) dtree = Ok rks.
Proof.
  unfold ranker_predict. simpl. intros H. inv_bind H. by inv_ok.
Qed.

(** X1. Under 'lllrrr' the left dependents of a head, from the nearest to
    the farthest, take the first ranks and the right dependents, from the
    nearest to the farthest, the following ones; under 'rrrlll' the right
    dependents come first. *)
Theorem predict_one_side_first (dtree : RstDepTree) (rks_l rks_r : list nat)
    (h : Z) (left_io right_io : list Z) :
  ranker_predict (mkRanker "lllrrr") [dtree] = Ok [rks_l] →
  ranker_predict (mkRanker "rrrlll") [dtree] = Ok [rks_r] →
  h ∈ drop 1 (heads dtree) →
  around dtree h left_io right_io →
  ranked_in_order rks_l (left_io ++ right_io) ∧
  ranked_in_order rks_r (right_io ++ left_io).
Proof.
  intros Hl%ranker_predict_single Hr%ranker_predict_single Hh Ha. split.
  - eapply ranked_as_order; [by eapply predict_tree_ranked_as|].
    by apply order_targets_lllrrr.
  - eapply ranked_as_order; [by eapply predict_tree_ranked_as|].
    by apply order_targets_rrrlll.
Qed.

Lemma predict_one_side_first_witness :
  ranked_in_order [0; 1; 0; 0; 2; 3; 4]%nat ([2; 1] ++ [4; 5; 6]) ∧
  ranked_in_order [0; 4; 3; 0; 0; 1; 2]%nat ([4; 5; 6] ++ [2; 1]).
Proof.
  apply (predict_one_side_first six_units_tree
           [0; 1; 0; 0; 2; 3; 4]%nat [0; 4; 3; 0; 0; 1; 2]%nat 3).
  - reflexivity.
  - reflexivity.
  - apply (bool_decide_unpack _). reflexivity.
  - split; [reflexivity|]. apply (bool_decide_unpack _). reflexivity.
Defined.

(** X2. Under 'lrlrlr' the ranks of the dependents of a head alternate
    between the two sides, each side from the nearest to the farthest,
    the left side first, and go on with the side that is left when the
    other is exhausted; under 'rlrlrl' the right side is first. *)
Theorem predict_alternate (dtree : RstDepTree) (rks_l rks_r : list nat)
    (h : Z) (left_io right_io : list Z) :
  ranker_predict (mkRanker "lrlrlr") [dtree] = Ok [rks_l] →
  ranker_predict (mkRanker "rlrlrl") [dtree] = Ok [rks_r] →
  h ∈ drop 1 (heads dtree) →
  around dtree h left_io right_io →
  ranked_in_order rks_l (interleave left_io right_io) ∧
  ranked_in_order rks_r (interleave right_io left_io).
Proof.
  intros Hl%ranker_predict_single Hr%ranker_predict_single Hh Ha. split.
  - eapply ranked_as_order; [by eapply predict_tree_ranked_as|].
    by apply order_targets_lrlrlr.
  - eapply ranked_as_order; [by eapply predict_tree_ranked_as|].
    by apply order_targets_rlrlrl.
Qed.

Lemma predict_alternate_witness :
  ranked_in_order [0; 2; 0; 0; 1; 3; 4]%nat (interleave [2; 1] [4; 5; 6]) ∧
  ranked_in_order [0; 3; 1; 0; 0; 2; 4]%nat (interleave [4; 5; 6] [2; 1]).
Proof.
  apply (predict_alternate six_units_tree
           [0; 2; 0; 0; 1; 3; 4]%nat [0; 3; 1; 0; 0; 2; 4]%nat 3).
  - reflexivity.
  - reflexivity.
  - apply (bool_decide_unpack _). reflexivity.
  - split; [reflexivity|]. apply (bool_decide_unpack _). reflexivity.
Defined.

(** ** The strategy 'id' *)

Lemma filter_ext_in {A} (P Q : A → Prop) `{∀ x, Decision (P x)}
    `{∀ x, Decision (Q x)} (l : list A) :
  (∀ x, x ∈ l → P x ↔ Q x) → filter P l = filter Q l.
Proof.
  induction l as [|x l IH]; intros HPQ; [done|].
  rewrite !filter_cons.
  destruct (decide (P x)) as [HP|HP], (decide (Q x)) as [HQ|HQ].
  - f_equal. apply IH. intros y Hy. apply HPQ. by right.
  - exfalso. apply HQ, HPQ; [by left|done].
  - exfalso. apply HP, HPQ; [by left|done].
  - apply IH. intros y Hy. apply HPQ. by right.
Qed.

Lemma filter_all {A} (P : A → Prop) `{∀ x, Decision (P x)} (l : list A) :
  (∀ x, x ∈ l → P x) → filter P l = l.
Proof.
  induction l as [|x l IH]; intros HP; [done|].
  rewrite filter_cons_True by (apply HP; by left).
  f_equal. apply IH. intros y Hy. apply HP. by right.
Qed.

Lemma filter_none {A} (P : A → Prop) `{∀ x, Decision (P x)} (l : list A) :
  (∀ x, x ∈ l → ¬ P x) → filter P l = [].
Proof.
  induction l as [|x l IH]; intros HP; [done|].
  rewrite filter_cons_False by (apply HP; by left).
  apply IH. intros y Hy. apply HP. by right.
Qed.

(** When it returns, 'id' has emptied both stacks from the top: what it
    lists of each stack is that stack reversed. *)
Lemma order_id_sides ts : ∀ l r res,
  order_id ts l r = Ok res → NoDup (l ++ r) →
  length ts = (length l + length r)%nat →
  filter (.∈ l) res = reverse l ∧ filter (.∈ r) res = reverse r.
Proof.
  induction ts as [|t ts IH]; intros l r res H Hnd Hlen.
  - simpl in H. inv_ok. destruct l, r; simpl in Hlen; try lia. done.
  - simpl in H. destruct (bool_decide (t ∈ l)).
    + inv_bind H. destruct a as [x l']. inv_bind H. inv_ok.
      apply pop_Ok in Ha as ->. rewrite length_app in Hlen. simpl in Hlen.
      rewrite <-(assoc_L (++)) in Hnd. simpl in Hnd.
      apply NoDup_app in Hnd as (Hl' & Hdisj & Hxr).
      apply NoDup_cons in Hxr as [Hxr Hr].
      assert (NoDup (l' ++ r)) as Hnd'.
      { apply NoDup_app. split; [done|]. split; [|done].
        intros y Hy Hyr. apply (Hdisj y Hy). by right. }
      assert (x ∉ l') as Hxl.
      { intros Hx. apply (Hdisj x Hx). by left. }
      destruct (IH l' r a Ha0 Hnd' ltac:(lia)) as [IHl IHr].
      apply order_id_pops in Ha0 as (rest & HP & Hl).
      eapply pops_all in HP; [|exact Hl|rewrite length_app; lia].
      assert (x ∉ a) as Hxa.
      { rewrite HP. intros [?|?]%elem_of_app; done. }
      split.
      * rewrite filter_cons_True by (apply elem_of_app; right; by left).
        rewrite reverse_snoc. f_equal. rewrite <-IHl.
        apply filter_ext_in. intros y Hy. rewrite elem_of_app.
        split; [|by left]. intros [?|Hyx%list_elem_of_singleton]; [done|].
        by subst.
      * by rewrite filter_cons_False.
    + inv_bind H. destruct a as [x r']. inv_bind H. inv_ok.
      apply pop_Ok in Ha as ->. rewrite length_app in Hlen. simpl in Hlen.
      rewrite (assoc_L (++)) in Hnd.
      apply NoDup_app in Hnd as (Hnd' & Hdisj & _).
      assert (x ∉ l ++ r') as Hxlr.
      { intros Hx. apply (Hdisj x Hx). by left. }
      destruct (IH l r' a Ha0 Hnd' ltac:(lia)) as [IHl IHr].
      apply order_id_pops in Ha0 as (rest & HP & Hl).
      eapply pops_all in HP; [|exact Hl|rewrite length_app; lia].
      assert (x ∉ a) as Hxa by (by rewrite HP).
      split.
      * rewrite filter_cons_False; [done|].
        intros Hx. apply Hxlr, elem_of_app. by left.
      * rewrite filter_cons_True by (apply elem_of_app; right; by left).
        rewrite reverse_snoc. f_equal. rewrite <-IHr.
        apply filter_ext_in. intros y Hy. rewrite elem_of_app.
        split; [|by left]. intros [?|Hyx%list_elem_of_singleton]; [done|].
        by subst.
Qed.

Lemma order_targets_id dtree head lio rio :
  around dtree head lio rio →
  order_targets dtree head "id"
  = order_id (targets_of dtree head) (reverse lio) (reverse rio).
Proof.
  intros H. enter_order H.
  by rewrite (bool_decide_eq_true_2 ("id" = "id")) by done.
Qed.

Lemma around_NoDup dtree head lio rio :
  around dtree head lio rio → NoDup (lio ++ rio).
Proof.
  intros H. rewrite (around_targets _ _ _ _ H). apply NoDup_targets.
Qed.

Lemma around_left_count dtree head lio rio :
  around dtree head lio rio →
  length (filter (.∈ lio) (targets_of dtree head)) = length lio.
Proof.
  intros H. pose proof (around_NoDup _ _ _ _ H) as Hnd.
  rewrite <-(around_targets _ _ _ _ H), filter_app.
  apply NoDup_app in Hnd as (_ & Hdisj & _).
  rewrite filter_all by done.
  rewrite (filter_none _ rio); [by rewrite app_nil_r|].
  intros x Hx Hl. by apply (Hdisj x).
Qed.

(** X3. When 'id' returns, the ranks of the dependents of a head follow an
    order that has a left dependent where the list of the dependents has
    one and a right dependent where it has one, and that lists each side
    from the nearest to the farthest. *)
Theorem predict_id_inside_out (dtree : RstDepTree) (rks : list nat) (h : Z)
    (left_io right_io : list Z) :
  ranker_predict (mkRanker "id") [dtree] = Ok [rks] →
  h ∈ drop 1 (heads dtree) →
  around dtree h left_io right_io →
  ∃ res,
    ranked_in_order rks res ∧
    Forall2 (λ t x, t ∈ left_io ↔ x ∈ left_io) (targets_of dtree h) res ∧
    filter (.∈ left_io) res = left_io ∧
    filter (.∈ right_io) res = right_io.
Proof.
  intros H%ranker_predict_single Hh Ha. cbn [rk_strategy] in H.
  destruct (predict_tree_ranked_as _ _ _ h H Hh) as (res & Hres & Hon).
  exists res. split; [done|].
  rewrite (order_targets_id _ _ _ _ Ha) in Hres.
  pose proof (around_NoDup _ _ _ _ Ha) as Hnd.
  pose proof (around_length _ _ _ _ Ha) as Hlen.
  split; [|split].
  - eapply (order_id_interleaving left_io); [exact Hres| | | |].
    + intros x. by rewrite elem_of_reverse.
    + intros x Hx Hl. rewrite elem_of_reverse in Hx.
      apply NoDup_app in Hnd as (_ & Hdisj & _). by apply (Hdisj x).
    + by rewrite !length_reverse.
    + by rewrite length_reverse, (around_left_count _ _ _ _ Ha).
  - apply order_id_sides in Hres as [Hl _].
    + rewrite reverse_involutive in Hl. etrans; [|exact Hl].
      apply list_filter_iff. intros x. symmetry. apply elem_of_reverse.
    + by rewrite !reverse_Permutation.
    + by rewrite !length_reverse.
  - apply order_id_sides in Hres as [_ Hr].
    + rewrite reverse_involutive in Hr. etrans; [|exact Hr].
      apply list_filter_iff. intros x. symmetry. apply elem_of_reverse.
    + by rewrite !reverse_Permutation.
    + by rewrite !length_reverse.
Qed.

Lemma predict_id_inside_out_witness :
  ∃ res,
    ranked_in_order [0; 0; 0; 1; 2]%nat res ∧
    Forall2 (λ t x, t ∈ [1] ↔ x ∈ [1]) (targets_of three_dependents_tree 2) res ∧
    filter (.∈ [1]) res = [1] ∧
    filter (.∈ [3; 4]) res = [3; 4].
Proof.
  apply (predict_id_inside_out three_dependents_tree [0; 0; 0; 1; 2]%nat 2).
  - reflexivity.
  - apply (bool_decide_unpack _). reflexivity.
  - split; [reflexivity|]. apply (bool_decide_unpack _). reflexivity.
Defined.

Lemma bind_Raise {A B} (m : result A) (k : A → result B) e :
  bind m k = Raise e → m = Raise e ∨ ∃ a, m = Ok a ∧ k a = Raise e.
Proof. destruct m as [a|e']; simpl; intros H; [eauto|left; congruence]. Qed.

Lemma mapM_Raise {A B} (f : A → result B) l e :
  mapM f l = Raise e → ∃ x, x ∈ l ∧ f x = Raise e.
Proof.
  induction l as [|x l IH]; simpl; intros H; [done|].
  apply bind_Raise in H as [H|(y & Hy & H)].
  - exists x. split; [by left|done].
  - apply bind_Raise in H as [H|(ys & Hys & H)]; [|done].
    destruct (IH H) as (z & Hz & Hfz). exists z. split; [by right|done].
Qed.

Lemma py_index_exn {A} (l : list A) i e : py_index l i = Raise e → e = IndexError.
Proof.
  unfold py_index. intros H.
  repeat match type of H with
         | (if ?b then _ else _) = _ => destruct b
         | match ?o with _ => _ end = _ => destruct o
         end; congruence.
Qed.

Lemma py_setitem_exn {A} (l : list A) i x e :
  py_setitem l i x = Raise e → e = IndexError.
Proof.
  unfold py_setitem. intros H.
  match type of H with (if ?b then _ else _) = _ => destruct b end;
    congruence.
Qed.

Lemma pop_exn {A} (l : list A) e : pop l = Raise e → e = IndexError.
Proof. unfold pop. destruct (last l); congruence. Qed.

Lemma order_id_exn ts : ∀ l r e, order_id ts l r = Raise e → e = IndexError.
Proof.
  induction ts as [|t ts IH]; simpl; intros l r e H; [done|].
  destruct (bool_decide (t ∈ l)).
  - apply bind_Raise in H as [H|([x l'] & _ & H)]; [by eapply pop_exn|].
    apply bind_Raise in H as [H|(? & _ & H)]; [by eapply IH|done].
  - apply bind_Raise in H as [H|([x r'] & _ & H)]; [by eapply pop_exn|].
    apply bind_Raise in H as [H|(? & _ & H)]; [by eapply IH|done].
Qed.

Lemma update_ranks_exn res : ∀ i rks e,
  update_ranks i res rks = Raise e → e = IndexError.
Proof.
  induction res as [|tgt res IH]; simpl; intros i rks e H; [done|].
  apply bind_Raise in H as [H|(rks' & _ & H)]; [by eapply py_setitem_exn|].
  by eapply IH.
Qed.

Lemma order_targets_id_exn dtree head e :
  order_targets dtree head "id" = Raise e → e = IndexError.
Proof.
  unfold order_targets. intros H.
  apply bind_Raise in H as [H|(sn & Hsn & H)].
  - unfold sorted in H. apply bind_Raise in H as [H|(? & _ & H)]; [|done].
    apply mapM_Raise in H as (x & _ & H).
    apply bind_Raise in H as [H|(? & _ & H)]; [by eapply py_index_exn|done].
  - apply bind_Raise in H as [H|(c & Hc & H)].
    + destruct (list_index_total head sn) as [c Hc]; [|congruence].
      apply sorted_perm in Hsn. rewrite Hsn. by left.
    + rewrite (bool_decide_eq_true_2 ("id" = "id")) in H by done.
      by eapply order_id_exn.
Qed.

Lemma rank_heads_id_exn dtree hs : ∀ rks e,
  rank_heads "id" dtree hs rks = Raise e → e = IndexError.
Proof.
  induction hs as [|h hs IH]; simpl; intros rks e H; [done|].
  apply bind_Raise in H as [H|(res & _ & H)]; [by eapply order_targets_id_exn|].
  apply bind_Raise in H as [H|(rks' & _ & H)]; [by eapply update_ranks_exn|].
  by eapply IH.
Qed.

(** A target that is on the left stack, but not on its top, pops the top;
    the run then has one left target more than the stack has items. *)
Lemma order_id_buried t ts l' x r :
  t ∈ l' → NoDup ((l' ++ [x]) ++ r) → t :: ts ≡ₚ (l' ++ [x]) ++ r →
  order_id (t :: ts) (l' ++ [x]) r = Raise IndexError.
Proof.
  intros Ht Hnd HP.
  destruct (order_id (t :: ts) (l' ++ [x]) r) as [res|e] eqn:E;
    [|by rewrite (order_id_exn _ _ _ _ E)].
  exfalso. simpl in E.
  rewrite bool_decide_eq_true_2 in E by (apply elem_of_app; by left).
  rewrite pop_snoc in E. cbn [bind] in E. inv_bind E. clear E.
  assert (length ts = (length l' + length r)%nat) as Hlen.
  { apply Permutation_length in HP. rewrite !length_app in HP.
    simpl in HP. lia. }
  pose proof (order_id_left_count l' ts l' r a Ha ltac:(done) Hlen) as Hc.
  assert (length (filter (.∈ l') (t :: ts)) = length l') as Hall.
  { rewrite HP, <-(assoc_L (++)), filter_app.
    rewrite <-(assoc_L (++)) in Hnd.
    apply NoDup_app in Hnd as (_ & Hdisj & _).
    rewrite filter_all by done.
    rewrite (filter_none _ ([x] ++ r)); [by rewrite app_nil_r|].
    intros y Hy Hl. by apply (Hdisj y). }
  rewrite filter_cons_True in Hall by done. simpl in Hall.
  apply list_elem_of_split in Ht as (l1 & l2 & ->).
  rewrite length_app in *. simpl in *. lia.
Qed.

(** X4. Under 'id', [predict] raises [IndexError] for every tree in which
    the first dependent of some head, in the order of the nodes, is a left
    dependent but not the one nearest to the head. *)
Theorem predict_id_buried_raises (dtree : RstDepTree) (h t x : Z)
    (ts left_io right_io : list Z) :
  h ∈ drop 1 (heads dtree) →
  around dtree h (x :: left_io) right_io →
  targets_of dtree h = t :: ts →
  t ∈ left_io →
  ranker_predict (mkRanker "id") [dtree] = Raise IndexError.
Proof.
  intros Hh Ha Hts Ht.
  assert (order_targets dtree h "id" = Raise IndexError) as Hraise.
  { rewrite (order_targets_id _ _ _ _ Ha), Hts, reverse_cons.
    apply order_id_buried.
    - by apply elem_of_reverse.
    - rewrite <-reverse_cons, !reverse_Permutation.
      by eapply around_NoDup.
    - rewrite <-reverse_cons, !reverse_Permutation, <-Hts.
      symmetry. by eapply around_targets. }
  unfold ranker_predict. simpl.
  destruct (predict_tree "id" dtree) as [rks|e] eqn:E.
  - destruct (predict_tree_ranked_as _ _ _ h E Hh) as (res & Hres & _).
    congruence.
  - simpl. f_equal. unfold predict_tree in E. by eapply rank_heads_id_exn.
Qed.

Lemma predict_id_buried_raises_witness :
  ranker_predict (mkRanker "id") [six_units_tree] = Raise IndexError.
Proof.
  apply (predict_id_buried_raises six_units_tree 3 1 2 [2; 4; 5; 6] [1]
           [4; 5; 6]).
  - apply (bool_decide_unpack _). reflexivity.
  - split; [reflexivity|]. apply (bool_decide_unpack _). reflexivity.
  - reflexivity.
  - apply (bool_decide_unpack _). reflexivity.
Defined.

(** ** What [predict] returns and when *)

(** X5. With a unit for every node and every head, [predict] under
    'lllrrr', 'rrrlll', 'lrlrlr' or 'rlrlrl' returns an array of ranks for
    every tree of the batch. *)
Theorem predict_positional_total (strategy : string) (X : list RstDepTree) :
  strategy ∈ positional_strategies →
  (∀ dtree, dtree ∈ X → units_for_heads dtree) →
  ∃ Y, ranker_predict (mkRanker strategy) X = Ok Y ∧ length Y = length X.
Proof.
  intros Hs HX. unfold ranker_predict. simpl.
  destruct (mapM_total (predict_tree strategy) X) as [Y HY].
  { intros dtree Hd. apply predict_tree_total; [done|by apply HX]. }
  exists Y. split; [done|]. by eapply mapM_length.
Qed.

Lemma six_units_for_heads : units_for_heads six_units_tree.
Proof.
  split; [simpl; lia|]. intros h Hh. simpl in Hh.
  repeat (apply elem_of_cons in Hh as [->|Hh]; [simpl; lia|]).
  inversion Hh.
Qed.

Lemma predict_positional_total_witness :
  ∃ Y, ranker_predict (mkRanker "rlrlrl") [six_units_tree] = Ok Y ∧
       length Y = length [six_units_tree].
Proof.
  apply (predict_positional_total "rlrlrl" [six_units_tree]).
  - apply (bool_decide_unpack _). reflexivity.
  - intros dtree ->%list_elem_of_singleton. exact six_units_for_heads.
Defined.

(** X6. The array that [predict] returns for a tree has one rank per node,
    and the rank of a node is smaller than the number of nodes that have
    the same head. *)
Theorem predict_ranks_bounded (rk : InsideOutAttachmentRanker)
    (dtree : RstDepTree) (rks : list nat) :
  ranker_predict rk [dtree] = Ok [rks] →
  length rks = length (heads dtree) ∧
  ∀ (i : nat) h, heads dtree !! i = Some h →
    ∃ k, rks !! i = Some k ∧ (k < length (targets_of dtree h))%nat.
Proof.
  intros H%ranker_predict_single. split.
  - unfold predict_tree in H.
    apply rank_heads_spec in H as (Hlen & _); [|apply NoDup_remove_dups].
    by rewrite Hlen, length_fmap.
  - intros i h Hi.
    pose proof (predict_tree_permutation _ _ _ h H) as HP.
    assert (rks !! i ∈ ranks_on rks (targets_of dtree h)) as Hin.
    { unfold ranks_on. apply list_elem_of_fmap.
      exists (Z.of_nat i). split; [by rewrite Nat2Z.id|].
      apply elem_of_targets. eauto. }
    unfold ranks_permutation in HP. rewrite HP in Hin.
    apply list_elem_of_fmap in Hin as (k & Hk & Hseq).
    apply elem_of_seq in Hseq. exists k. split; [done|lia].
Qed.

Lemma predict_ranks_bounded_witness :
  length [0; 3; 1; 0; 0; 2; 4]%nat = length (heads six_units_tree) ∧
  ∀ (i : nat) h, heads six_units_tree !! i = Some h →
    ∃ k, ([0; 3; 1; 0; 0; 2; 4]%nat : list nat) !! i = Some k ∧
         (k < length (targets_of six_units_tree h))%nat.
Proof.
  apply (predict_ranks_bounded (mkRanker "rlrlrl") six_units_tree).
  reflexivity.
Defined.

(** X7. On a tree that has no [sent_idx], [predict] under one of the three
    'closest-intra-*' strategies raises [ValueError] as soon as the tree
    has a node besides the fake root (and a unit for every node and
    head). *)
Theorem predict_intra_needs_sentences (strategy : string)
    (dtree : RstDepTree) :
  strategy ∈ intra_strategies →
  sent_idx dtree = None →
  units_for_heads dtree →
  drop 1 (heads dtree) ≠ [] →
  ranker_predict (mkRanker strategy) [dtree] = Raise ValueError.
Proof.
  intros Hs Hsent [Hlen Hheads] Hne.
  assert (∀ h, - Z.of_nat (length (edus dtree)) ≤ h
               < Z.of_nat (length (edus dtree)) →
               order_targets dtree h strategy = Raise ValueError) as Horder.
  { intros h Hh. unfold order_targets.
    destruct (sorted_total Z.leb
                (λ x, e ← py_index (edus dtree) x; Ok (char_start (span e)))
                (h :: targets_of dtree h)) as [sn Hsn].
    { intros x [->|Hx]%elem_of_cons.
      - destruct (py_index_total (edus dtree) h Hh) as [e ->]. simpl. eauto.
      - apply elem_of_targets in Hx as (i & -> & Hi).
        apply lookup_lt_Some in Hi.
        destruct (py_index_total (edus dtree) (Z.of_nat i)) as [e ->]; [lia|].
        simpl. eauto. }
    rewrite Hsn. cbn [bind]. apply sorted_perm in Hsn.
    destruct (list_index_total h sn) as [c ->]; [rewrite Hsn; by left|].
    cbn [bind]. rewrite Hsent. unfold intra_strategies in Hs.
    repeat (apply elem_of_cons in Hs as [->|Hs]); [| | |inversion Hs];
      repeat (rewrite bool_decide_eq_false_2 by done); done. }
  unfold ranker_predict. simpl. unfold predict_tree.
  destruct (unique_heads dtree) as [|h hs] eqn:E.
  - exfalso. destruct (drop 1 (heads dtree)) as [|x l] eqn:El; [done|].
    assert (x ∈ unique_heads dtree) as Hx.
    { unfold unique_heads. rewrite El. apply elem_of_remove_dups. by left. }
    rewrite E in Hx. inversion Hx.
  - simpl. rewrite Horder; [done|]. apply Hheads.
    apply (elem_of_remove_dups (drop 1 (heads dtree))).
    fold (unique_heads dtree). rewrite E. by left.
Qed.

Lemma predict_intra_needs_sentences_witness :
  ranker_predict (mkRanker "closest-intra-rl-inter-lr") [six_units_tree]
  = Raise ValueError.
Proof.
  apply (predict_intra_needs_sentences "closest-intra-rl-inter-lr"
           six_units_tree).
  - apply (bool_decide_unpack _). reflexivity.
  - reflexivity.
  - exact six_units_for_heads.
  - discriminate.
Defined.

(** ** The nearest first *)

Section sorted_order.
Context {A K : Type} (leb : K → K → bool).
Hypothesis leb_total : ∀ a b, leb a b = false → leb b a = true.
Hypothesis leb_trans : ∀ a b c, leb a b = true → leb b c = true → leb a c = true.

Lemma insert_key_sorted_by (x : K * A) l :
  StronglySorted (λ p q : K * A, leb p.1 q.1 = true) l →
  StronglySorted (λ p q : K * A, leb p.1 q.1 = true) (insert_key leb x l).
Proof.
  induction 1 as [|y l Hl IH Hy]; simpl.
  - repeat constructor.
  - destruct (leb x.1 y.1) eqn:E.
    + constructor; [by constructor|]. constructor; [done|].
      eapply Forall_impl; [exact Hy|]. simpl. intros z Hz. by eapply leb_trans.
    + constructor; [done|]. rewrite insert_key_perm.
      constructor; [by apply leb_total|done].
Qed.

Lemma stable_sort_sorted_by (l : list (K * A)) :
  StronglySorted (λ p q : K * A, leb p.1 q.1 = true) (stable_sort leb l).
Proof.
  induction l as [|x l IH]; simpl; [constructor|].
  by apply insert_key_sorted_by.
Qed.

Lemma mapM_zip (key : A → result K) l ks :
  mapM key l = Ok ks → ∀ p, p ∈ zip ks l → key p.2 = Ok p.1.
Proof.
  revert ks. induction l as [|x l IH]; simpl; intros ks H p Hp.
  - inv_ok. inversion Hp.
  - inv_bind H. inv_bind H. inv_ok. simpl in Hp.
    apply elem_of_cons in Hp as [->|Hp]; [done|]. by eapply IH.
Qed.

Lemma StronglySorted_lookup_lt {B} (R : relation B) (l : list B) i j x y :
  StronglySorted R l → l !! i = Some x → l !! j = Some y → (i < j)%nat →
  R x y.
Proof.
  intros Hl. revert i j. induction Hl as [|z l Hl IH Hz]; intros i j Hi Hj Hlt.
  - done.
  - destruct j as [|j]; [lia|]. simpl in Hj. destruct i as [|i]; simpl in Hi.
    + injection Hi as ->. rewrite Forall_forall in Hz. apply Hz.
      by eapply list_elem_of_lookup_2.
    + eapply IH; eauto. lia.
Qed.

(** In the result of [sorted], an item with a strictly smaller key comes
    before one with a greater key. *)
Lemma sorted_smaller_first (key : A → result K) l res i j a b ka kb :
  sorted leb key l = Ok res →
  res !! i = Some a → res !! j = Some b →
  key a = Ok ka → key b = Ok kb → leb kb ka = false →
  (i < j)%nat.
Proof.
  unfold sorted. intros H Hi Hj Ha Hb Hlt. inv_bind H. inv_ok.
  rename a0 into ks. rename Ha0 into Hks.
  rewrite list_lookup_fmap in Hi, Hj.
  destruct (stable_sort leb (zip ks l) !! i) as [[ka' a']|] eqn:Ei; [|done].
  destruct (stable_sort leb (zip ks l) !! j) as [[kb' b']|] eqn:Ej; [|done].
  simpl in Hi, Hj. injection Hi as ->. injection Hj as ->.
  assert (ka' = ka) as ->.
  { apply list_elem_of_lookup_2 in Ei. rewrite stable_sort_perm in Ei.
    apply (mapM_zip _ _ _ Hks) in Ei. simpl in Ei. congruence. }
  assert (kb' = kb) as ->.
  { apply list_elem_of_lookup_2 in Ej. rewrite stable_sort_perm in Ej.
    apply (mapM_zip _ _ _ Hks) in Ej. simpl in Ej. congruence. }
  destruct (decide (i < j)%nat) as [|Hge]; [done|]. exfalso.
  destruct (decide (i = j)) as [->|Hne].
  - rewrite Ei in Ej. injection Ej as -> ->.
    pose proof (leb_total _ _ Hlt). congruence.
  - pose proof (StronglySorted_lookup_lt _ _ j i _ _
                  (stable_sort_sorted_by _) Ej Ei ltac:(lia)) as HR.
    simpl in HR. congruence.
Qed.
End sorted_order.

Lemma leb2_trans a b c : leb2 a b = true → leb2 b c = true → leb2 a c = true.
Proof.
  unfold leb2. destruct a as [a1 a2], b as [b1 b2], c as [c1 c2]. simpl.
  rewrite !orb_true_iff, !andb_true_iff, !Z.ltb_lt, !Z.eqb_eq, !Z.leb_le.
  lia.
Qed.

Lemma closest_key_Ok dtree rc lc ph x px :
  idx dtree !! x = Some px →
  closest_key dtree rc lc ph x = Ok (Z.abs (px - ph), side rc lc px ph).
Proof. intros H. unfold closest_key, py_getitem. by rewrite H. Qed.

Lemma closest_nearer_first dtree rc lc ph res rks h a b pa pb :
  sorted leb2 (closest_key dtree rc lc ph) (targets_of dtree h) = Ok res →
  ranked_in_order rks res →
  Z.of_nat a ∈ targets_of dtree h → Z.of_nat b ∈ targets_of dtree h →
  idx dtree !! Z.of_nat a = Some pa → idx dtree !! Z.of_nat b = Some pb →
  Z.abs (pa - ph) < Z.abs (pb - ph) →
  ∃ ka kb, rks !! a = Some ka ∧ rks !! b = Some kb ∧ (ka < kb)%nat.
Proof.
  intros Hres Hon Ha Hb Hpa Hpb Hlt.
  apply sorted_perm in Hres as HP.
  rewrite <-HP in Ha, Hb.
  apply list_elem_of_lookup in Ha as [i Hi].
  apply list_elem_of_lookup in Hb as [j Hj].
  assert (∀ (k : nat) (x : nat), res !! k = Some (Z.of_nat x) →
                                 rks !! x = Some k) as Hrank.
  { intros k x Hk. unfold ranked_in_order, ranks_on in Hon.
    assert (((λ i, rks !! Z.to_nat i) <$> res) !! k = Some (rks !! x)) as H1.
    { by rewrite list_lookup_fmap, Hk; simpl; rewrite Nat2Z.id. }
    rewrite Hon, list_lookup_fmap in H1.
    apply lookup_lt_Some in Hk as Hlen.
    rewrite lookup_seq_lt in H1 by done. simpl in H1. by injection H1. }
  exists i, j. split; [by apply Hrank|]. split; [by apply Hrank|].
  eapply (sorted_smaller_first leb2 leb2_total leb2_trans);
    [exact Hres|exact Hi|exact Hj| | |].
  - by apply closest_key_Ok.
  - by apply closest_key_Ok.
  - unfold leb2. simpl. apply orb_false_iff. split; [apply Z.ltb_ge; lia|].
    apply andb_false_iff. left. apply Z.eqb_neq. lia.
Qed.

(** X8. Under 'closest-lr' and under 'closest-rl', of two dependents of
    the same head the one whose position is nearer to the position of the
    head has the smaller rank, on whichever sides they are. *)
Theorem predict_closest_nearer_first (dtree : RstDepTree)
    (rks_lr rks_rl : list nat) (h : Z) (a b : nat) (pa pb ph : Z) :
  ranker_predict (mkRanker "closest-lr") [dtree] = Ok [rks_lr] →
  ranker_predict (mkRanker "closest-rl") [dtree] = Ok [rks_rl] →
  h ∈ drop 1 (heads dtree) →
  heads dtree !! a = Some h → heads dtree !! b = Some h →
  idx dtree !! Z.of_nat a = Some pa → idx dtree !! Z.of_nat b = Some pb →
  idx dtree !! h = Some ph →
  Z.abs (pa - ph) < Z.abs (pb - ph) →
  (∃ ka kb, rks_lr !! a = Some ka ∧ rks_lr !! b = Some kb ∧ (ka < kb)%nat) ∧
  (∃ ka kb, rks_rl !! a = Some ka ∧ rks_rl !! b = Some kb ∧ (ka < kb)%nat).
Proof.
  intros Hlr%ranker_predict_single Hrl%ranker_predict_single Hh Ha Hb
    Hpa Hpb Hph Hlt. cbn [rk_strategy] in *.
  assert (Z.of_nat a ∈ targets_of dtree h) as Hta.
  { apply elem_of_targets. eauto. }
  assert (Z.of_nat b ∈ targets_of dtree h) as Htb.
  { apply elem_of_targets. eauto. }
  split.
  - destruct (predict_tree_ranked_as _ _ _ h Hlr Hh) as (res & Hres & Hon).
    apply order_targets_closest_lr in Hres as (ph' & Hph' & Hres).
    unfold py_getitem in Hph'. rewrite Hph in Hph'. inv_ok.
    by eapply closest_nearer_first.
  - destruct (predict_tree_ranked_as _ _ _ h Hrl Hh) as (res & Hres & Hon).
    apply order_targets_closest_rl in Hres as (ph' & Hph' & Hres).
    unfold py_getitem in Hph'. rewrite Hph in Hph'. inv_ok.
    by eapply closest_nearer_first.
Qed.

Lemma predict_closest_nearer_first_witness :
  (∃ ka kb, ([0; 0; 0; 1; 2]%nat : list nat) !! 3%nat = Some ka ∧
            ([0; 0; 0; 1; 2]%nat : list nat) !! 4%nat = Some kb ∧
            (ka < kb)%nat) ∧
  (∃ ka kb, ([0; 1; 0; 0; 2]%nat : list nat) !! 3%nat = Some ka ∧
            ([0; 1; 0; 0; 2]%nat : list nat) !! 4%nat = Some kb ∧
            (ka < kb)%nat).
Proof.
  apply (predict_closest_nearer_first three_dependents_tree
           [0; 0; 0; 1; 2]%nat [0; 1; 0; 0; 2]%nat 2 3 4 3 4 2).
  - reflexivity.
  - reflexivity.
  - apply (bool_decide_unpack _). reflexivity.
  - reflexivity.
  - reflexivity.
  - reflexivity.
  - reflexivity.
  - reflexivity.
  - simpl. lia.
Defined.

(** ** The classifier before and after [fit] *)

Lemma mapM_predict_nuc_unfitted strategy (lbls : list label) :
  lbls ≠ [] →
  mapM (predict_nuc (mkClassifier strategy None)) lbls = Raise AttributeError.
Proof. by destruct lbls. Qed.

(** X9. [predict] on a classifier that was not fitted raises
    [AttributeError] as soon as a tree of the batch has a label: the list
    of multinuclear labels is only set by [fit]. *)
Theorem classifier_predict_needs_fit (strategy : string)
    (clf : DummyNuclearityClassifier) (X : list RstDepTree)
    (dtree : RstDepTree) :
  classifier_init strategy = Ok clf →
  dtree ∈ X → labels dtree ≠ [] →
  classifier_predict clf X = Raise AttributeError.
Proof.
  unfold classifier_init. intros Hinit Hin Hne. inv_ok.
  unfold classifier_predict.
  induction X as [|d X IH]; [inversion Hin|]. simpl.
  destruct (labels d) as [|rel rest] eqn:E.
  - simpl. apply elem_of_cons in Hin as [->|Hin]; [congruence|].
    by rewrite IH.
  - done.
Qed.

Lemma classifier_predict_needs_fit_witness :
  classifier_predict (mkClassifier "most_frequent_by_rel" None)
    [doc_tree [-1] [] []; one_unit_tree] = Raise AttributeError.
Proof.
  apply (classifier_predict_needs_fit "most_frequent_by_rel" _ _ one_unit_tree).
  - reflexivity.
  - apply elem_of_cons. right. apply list_elem_of_singleton. reflexivity.
  - discriminate.
Defined.

(** X10. With the strategy 'unamb_else_most_frequent', constructing,
    fitting and predicting gives, whatever the training table, a nucleus
    for each label 'joint', 'same-unit' or 'textual' and a satellite for
    every other label and for the missing label of the fake root. *)
Theorem classifier_unamb_predict (table : list (string * string))
    (X : list RstDepTree) :
  ∃ clf0 clf,
    classifier_init "unamb_else_most_frequent" = Ok clf0 ∧
    classifier_fit table clf0 = Ok clf ∧
    classifier_predict clf X =
    Ok ((λ dtree,
           (λ rel, if bool_decide
                        (rel ∈ [Some "joint"; Some "same-unit"; Some "textual"])
                   then NUC_N else NUC_S) <$> labels dtree) <$> X).
Proof.
  eexists _, _. split; [reflexivity|]. split; [reflexivity|].
  unfold classifier_predict. apply mapM_map. intros dtree _.
  apply mapM_map. intros rel _. unfold predict_nuc. simpl. f_equal.
  destruct rel as [s|]; simpl; [|done].
  destruct (decide (s ∈ ["joint"; "same-unit"; "textual"])) as [Hs|Hs].
  - rewrite bool_decide_eq_true_2 by done.
    rewrite bool_decide_eq_true_2; [done|].
    repeat (apply elem_of_cons in Hs as [->|Hs];
            [apply (bool_decide_unpack _); reflexivity|]).
    inversion Hs.
  - rewrite bool_decide_eq_false_2 by done.
    rewrite bool_decide_eq_false_2; [done|].
    intros Hin. apply Hs.
    repeat (apply elem_of_cons in Hin as [Hin|Hin];
            [injection Hin as ->; apply (bool_decide_unpack _); reflexivity|]).
    inversion Hin.
Qed.

(** X11. With the strategy 'most_frequent_by_rel', constructing, fitting
    and predicting gives a nucleus exactly for the labels that the
    training table lists with the pattern 'NN', and a satellite for every
    other label and for the missing label of the fake root. *)
Theorem classifier_by_rel_predict (table : list (string * string))
    (X : list RstDepTree) :
  ∃ clf0 clf Y,
    classifier_init "most_frequent_by_rel" = Ok clf0 ∧
    classifier_fit table clf0 = Ok clf ∧
    classifier_predict clf X = Ok Y ∧
    ∀ (k j : nat) dtree rel,
      X !! k = Some dtree → labels dtree !! j = Some rel →
      ∃ yi v, Y !! k = Some yi ∧ yi !! j = Some v ∧
              (v = NUC_N ∨ v = NUC_S) ∧
              (v = NUC_N ↔ ∃ s, rel = Some s ∧ (s, "NN") ∈ table).
Proof.
  set (lbls := (filter (λ p : string * string, p.2 = "NN") table).*1).
  set (f := λ rel, if label_in rel lbls then NUC_N else NUC_S).
  exists (mkClassifier "most_frequent_by_rel" None),
         (mkClassifier "most_frequent_by_rel" (Some lbls)),
         ((λ dtree, f <$> labels dtree) <$> X).
  split; [reflexivity|]. split; [reflexivity|]. split.
  - unfold classifier_predict. apply mapM_map. intros dtree _.
    by apply mapM_map.
  - intros k j dtree rel Hk Hj. exists (f <$> labels dtree), (f rel).
    split; [by rewrite list_lookup_fmap, Hk|].
    split; [apply list_lookup_fmap_Some; by exists rel|].
    assert (label_in rel lbls = true ↔ ∃ s, rel = Some s ∧ (s, "NN") ∈ table)
      as Hin.
    { destruct rel as [s|]; simpl.
      - rewrite bool_decide_eq_true. unfold lbls.
        rewrite list_elem_of_fmap. split.
        + intros ([s' m] & -> & [Hm Hp]%list_elem_of_filter).
          simpl in *. subst. eauto.
        + intros (s' & [= <-] & Hp). exists (s, "NN"). split; [done|].
          by apply list_elem_of_filter.
      - split; [done|]. by intros (s & ? & _). }
    unfold f. destruct (label_in rel lbls).
    + split; [by left|]. split; [intros _; by apply Hin|done].
    + split; [by right|]. split; [done|].
      intros H. apply Hin in H. done.
Qed.

(** ** Nuclearity, unit spans and relations in the tree *)

Lemma nucleus_ok_pair node a x b y :
  nucleus_ok node [parts_to_tree a x; parts_to_tree b y] =
  bool_decide (a = NUC_N ∨ b = NUC_N).
Proof. reflexivity. Qed.

Lemma leaf_span_ok_pair node a x b y :
  leaf_span_ok node [parts_to_tree a x; parts_to_tree b y] = true.
Proof. reflexivity. Qed.

Lemma walk_nucleus dtree fuel s res nuc :
  0 < s → walk fuel dtree None s = Ok res →
  all_nodes nucleus_ok (parts_to_tree nuc res) = true.
Proof.
  intros Hs H. revert nuc.
  eapply (walk_invariant dtree
            (λ parts, ∀ nuc, all_nodes nucleus_ok (parts_to_tree nuc parts) = true));
    [| |exact Hs| |exact H]; [| |done].
  - intros s' e _ _ nuc. reflexivity.
  - intros src tgt rel nuc res' Hsrc Htgt Hc nuc'.
    apply connect_trees_inv in Hc as Hov.
    rewrite (connect_trees_Ok _ _ _ _ Hov) in Hc. inv_ok.
    destruct (span_le (tp_span src) (tp_span tgt));
      rewrite parts_to_tree_pair, all_nodes_pair, nucleus_ok_pair,
        Hsrc, Htgt, !andb_true_r; apply bool_decide_eq_true; auto.
Qed.

Lemma walk_leaf_span dtree fuel s res nuc :
  0 < s → walk fuel dtree None s = Ok res →
  all_nodes leaf_span_ok (parts_to_tree nuc res) = true.
Proof.
  intros Hs H. revert nuc.
  eapply (walk_invariant dtree
            (λ parts, ∀ nuc, all_nodes leaf_span_ok (parts_to_tree nuc parts) = true));
    [| |exact Hs| |exact H]; [| |done].
  - intros s' e _ _ nuc. unfold parts_to_tree, mk_leaf. simpl.
    rewrite andb_true_r. by apply bool_decide_eq_true.
  - intros src tgt rel nuc res' Hsrc Htgt Hc nuc'.
    apply connect_trees_inv in Hc as Hov.
    rewrite (connect_trees_Ok _ _ _ _ Hov) in Hc. inv_ok.
    destruct (span_le (tp_span src) (tp_span tgt));
      rewrite parts_to_tree_pair, all_nodes_pair, leaf_span_ok_pair,
        Hsrc, Htgt; reflexivity.
Qed.

Lemma fold_walk_headed dtree (w : option TreeParts → Z → result TreeParts)
    h tgts :
  (∀ a d res, d ∈ tgts →
     (∀ nuc, headed dtree h (parts_to_tree nuc a)) →
     w (Some a) d = Ok res →
     ∀ nuc, headed dtree h (parts_to_tree nuc res)) →
  ∀ src res,
    (∀ nuc, headed dtree h (parts_to_tree nuc src)) →
    fold_walk w src tgts = Ok res →
    ∀ nuc, headed dtree h (parts_to_tree nuc res).
Proof.
  induction tgts as [|tgt tgts IH]; simpl; intros Hw src res Hsrc H.
  - by inv_ok.
  - inv_bind H. eapply IH; [|exact (Hw _ _ _ ltac:(by left) Hsrc Ha)|exact H].
    intros a' d res' Hd. apply Hw. by right.
Qed.

(** What [walk] returns for the node [s] is built for [s] when there is no
    ancestor, and for the head of [s] when the partial tree of the ancestor
    is built for that head. *)
Lemma walk_headed dtree fuel : ∀ anc s res,
  walk fuel dtree anc s = Ok res →
  match anc with
  | None => ∀ nuc, headed dtree s (parts_to_tree nuc res)
  | Some a => ∀ h, s ∈ dependents dtree h →
      (∀ nuc, headed dtree h (parts_to_tree nuc a)) →
      ∀ nuc, headed dtree h (parts_to_tree nuc res)
  end.
Proof.
  induction fuel as [|fuel IH]; simpl; intros anc s res H; [done|].
  inv_bind H. rename a into rel. inv_bind H. rename a into nuc.
  inv_bind H. rename a into e. inv_bind H. rename a into tgts.
  inv_bind H. rename a into src.
  assert (∀ nuc', headed dtree s (parts_to_tree nuc' src)) as Hsrc.
  { eapply fold_walk_headed; [| |exact Ha3].
    - intros a d res' Hd Hinv Hw. apply (IH (Some a) d res' Hw); [|exact Hinv].
      apply deps_dependents in Ha2. by rewrite <-Ha2.
    - intros nuc'. by apply headed_leaf. }
  destruct anc as [a|]; [|by inv_ok].
  intros h Hd Hanc nuc'.
  apply connect_trees_inv in H as Hov.
  rewrite (connect_trees_Ok _ _ _ _ Hov) in H. inv_ok.
  destruct (span_le (tp_span a) (tp_span src)); rewrite parts_to_tree_pair.
  - eapply (headed_left dtree h s); [reflexivity|reflexivity|reflexivity
                                     |exact Hd|exact Ha0|exact Ha
                                     |exact (Hanc NUC_N)|exact (Hsrc nuc)].
  - eapply (headed_right dtree h s); [reflexivity|reflexivity|reflexivity
                                      |exact Hd|exact Ha0|exact Ha
                                      |exact (Hanc NUC_N)|exact (Hsrc nuc)].
Qed.

(** The unit of the node a tree is built for is one of its leaves. *)
Lemma headed_leaf_of_head dtree h t :
  headed dtree h t → ∃ e, py_index (edus dtree) h = Ok e ∧ e ∈ leaves t.
Proof.
  induction 1 as [h e node He|h d node hn dn ht dt _ _ _ _ _ _ _ [e [He Hin]] _ _
                 |h d node hn dn ht dt _ _ _ _ _ _ _ [e [He Hin]] _ _].
  - exists e. split; [done|]. simpl. by left.
  - exists e. split; [done|]. simpl. apply elem_of_app. by left.
  - exists e. split; [done|]. simpl. rewrite app_nil_r.
    apply elem_of_app. by right.
Qed.

(** With the two sides exchanged, the head 2 a satellite and its dependent
    1 the nucleus, the tree is not one built for the head 2. *)
Lemma headed_not_exchanged (node : Node) :
  ¬ headed four_units_tree 2
      (Tree node
         [Tree (mkNode NUC_N (1, 1) (mkSpan 10 15) (Some "leaf"))
            [Leaf (unit_at 1)];
          Tree (mkNode NUC_S (2, 2) (mkSpan 20 25) (Some "leaf"))
            [Leaf (unit_at 2)]]).
Proof.
  intros H. inversion H as [|h d nd hn dn ht dt Hhn Hdn Hn Hd Hnuc Hrel Hh Hdt
                            |h d nd hn dn ht dt Hhn Hdn Hn Hd Hnuc Hrel Hh Hdt];
    subst.
  - apply headed_leaf_of_head in Hh as (e & He & Hin).
    vm_compute in He. injection He as <-. simpl in Hin.
    apply list_elem_of_singleton in Hin. discriminate Hin.
  - simpl in Hhn. injection Hhn as <-. discriminate Hn.
Qed.

(** X12. In a tree returned by [deptree_to_simple_rst_tree] the top node
    has the nuclearity [NUC_R], of the two subtrees of any node at least
    one is a nucleus, and the tree is built for the one real root: at
    every node with two subtrees, the subtree on the side of the head is
    wrapped as [NUC_N] and the subtree of the dependent that is attached
    there has the nuclearity of that dependent, the node carrying its
    label. *)
Theorem convert_nuclearity (fuel : nat) (dtree : RstDepTree)
    (t : SimpleRSTTree) :
  deptree_to_simple_rst_tree fuel dtree = Ok t →
  (∃ node, treenode t = Ok node ∧ node_nuclearity node = NUC_R) ∧
  all_nodes nucleus_ok t = true ∧
  ∃ r, real_roots_idx dtree = [r] ∧ headed dtree r t.
Proof.
  intros H. apply convert_walk in H as (r & rparts & Hroot & Hr & Hw & ->).
  split; [by eexists|]. split; [by eapply walk_nucleus|].
  exists r. split; [done|]. exact (walk_headed dtree fuel None r rparts Hw NUC_R).
Qed.

Lemma convert_nuclearity_witness :
  ∃ t, deptree_to_simple_rst_tree 5 four_units_tree = Ok t ∧
       (∃ node, treenode t = Ok node ∧ node_nuclearity node = NUC_R) ∧
       all_nodes nucleus_ok t = true ∧
       ∃ r, real_roots_idx four_units_tree = [r] ∧ headed four_units_tree r t.
Proof.
  eexists. split; [reflexivity|].
  apply (convert_nuclearity 5 four_units_tree). reflexivity.
Defined.

(** X13. In a tree returned by [deptree_to_simple_rst_tree] every node
    that holds a unit has the number of that unit, twice, as its unit span
    and the text span of the unit as its span. *)
Theorem convert_leaf_spans (fuel : nat) (dtree : RstDepTree)
    (t : SimpleRSTTree) :
  deptree_to_simple_rst_tree fuel dtree = Ok t →
  all_nodes leaf_span_ok t = true.
Proof.
  intros H. apply convert_walk in H as (r & rparts & _ & Hr & Hw & ->).
  by eapply walk_leaf_span.
Qed.

Lemma convert_leaf_spans_witness :
  ∃ t, deptree_to_simple_rst_tree 5 four_units_tree = Ok t ∧
       all_nodes leaf_span_ok t = true.
Proof.
  eexists. split; [reflexivity|].
  apply (convert_leaf_spans 5 four_units_tree). reflexivity.
Defined.

Lemma covers_units_connect a src rel nuc res :
  covers_units (leaves_parts a) (tp_edu_span a) →
  covers_units (leaves_parts src) (tp_edu_span src) →
  connect_trees a src rel nuc = Ok res →
  covers_units (leaves_parts res) (tp_edu_span res).
Proof.
  intros ((ea1 & Hea1 & Ha1) & (ea2 & Hea2 & Ha2) & Ha)
         ((es1 & Hes1 & Hs1) & (es2 & Hes2 & Hs2) & Hs) Hc.
  pose proof (leaves_connect_perm _ _ _ _ _ Hc) as HP.
  apply connect_trees_inv in Hc as Hov.
  rewrite (connect_trees_Ok _ _ _ _ Hov) in Hc. inv_ok.
  unfold covers_units. setoid_rewrite HP. cbn [tp_edu_span fst snd].
  split; [|split].
  - destruct (Z.min_spec (tp_edu_span a).1 (tp_edu_span src).1)
      as [[_ ->]|[_ ->]].
    + exists ea1. split; [apply elem_of_app; by left|done].
    + exists es1. split; [apply elem_of_app; by right|done].
  - destruct (Z.max_spec (tp_edu_span a).2 (tp_edu_span src).2)
      as [[_ ->]|[_ ->]].
    + exists es2. split; [apply elem_of_app; by right|done].
    + exists ea2. split; [apply elem_of_app; by left|done].
  - intros e [He|He]%elem_of_app; [apply Ha in He|apply Hs in He]; lia.
Qed.

(** X14. The unit span at the top of a tree returned by
    [deptree_to_simple_rst_tree] goes from the least to the greatest
    number of the units at the leaves. *)
Theorem convert_unit_span (fuel : nat) (dtree : RstDepTree)
    (t : SimpleRSTTree) :
  deptree_to_simple_rst_tree fuel dtree = Ok t →
  ∃ node, treenode t = Ok node ∧ covers_units (leaves t) (node_edu_span node).
Proof.
  intros H. apply convert_walk in H as (r & rparts & _ & Hr & Hw & ->).
  eexists. split; [reflexivity|]. simpl.
  change (leaves (parts_to_tree NUC_R rparts)) with (leaves_parts rparts).
  eapply (walk_invariant dtree
            (λ parts, covers_units (leaves_parts parts) (tp_edu_span parts)));
    [| |exact Hr| |exact Hw]; [| |done].
  - intros s e _ _. rewrite leaves_mk_leaf. simpl.
    split; [|split].
    + exists e. split; [by left|done].
    + exists e. split; [by left|done].
    + intros e' ->%list_elem_of_singleton. simpl. lia.
  - intros src tgt rel nuc res. apply covers_units_connect.
Qed.

Lemma convert_unit_span_witness :
  ∃ t, deptree_to_simple_rst_tree 5 four_units_tree = Ok t ∧
       ∃ node, treenode t = Ok node ∧
               covers_units (leaves t) (node_edu_span node).
Proof.
  eexists. split; [reflexivity|].
  apply (convert_unit_span 5 four_units_tree). reflexivity.
Defined.

Lemma fold_walk_app w src l1 l2 :
  fold_walk w src (l1 ++ l2)
  = bind (fold_walk w src l1) (λ src', fold_walk w src' l2).
Proof.
  revert src. induction l1 as [|x l1 IH]; intros src; simpl; [done|].
  destruct (w (Some src) x); simpl; [apply IH|done].
Qed.

(** What is attached under an ancestor carries the relation of the node
    that was attached. *)
Lemma walk_attached_rel dtree fuel a s res :
  walk fuel dtree (Some a) s = Ok res →
  py_index (labels dtree) s = Ok (tp_rel res).
Proof.
  destruct fuel as [|fuel]; simpl; intros H; [done|].
  inv_bind H. rename a0 into rel. inv_bind H. inv_bind H. inv_bind H.
  inv_bind H. apply connect_trees_inv in H as Hov.
  rewrite (connect_trees_Ok _ _ _ _ Hov) in H. by inv_ok.
Qed.

(** X15. The relation at the top of a tree returned by
    [deptree_to_simple_rst_tree] is the label of the dependent of the root
    that has the greatest rank, the last one to be attached. *)
Theorem convert_top_relation (fuel : nat) (dtree : RstDepTree)
    (t : SimpleRSTTree) (r d : Z) (ds : list Z) (rel : label) :
  deptree_to_simple_rst_tree fuel dtree = Ok t →
  real_roots_idx dtree = [r] →
  deps dtree r = Ok (ds ++ [d]) →
  py_index (labels dtree) d = Ok rel →
  ∃ node, treenode t = Ok node ∧ node_rel node = rel.
Proof.
  intros H Hroots Hdeps Hrel.
  apply convert_walk in H as (r' & rparts & Hroots' & Hr & Hw & ->).
  rewrite Hroots in Hroots'. injection Hroots' as <-.
  eexists. split; [reflexivity|]. simpl.
  destruct fuel as [|fuel]; simpl in Hw; [done|].
  inv_bind Hw. inv_bind Hw. inv_bind Hw. inv_bind Hw. inv_bind Hw. inv_ok.
  rewrite Hdeps in Ha2. inv_ok.
  rewrite fold_walk_app in Ha3. inv_bind Ha3. simpl in Ha3. inv_bind Ha3.
  inv_ok. apply walk_attached_rel in Ha4. congruence.
Qed.

Lemma convert_top_relation_witness :
  ∃ t, deptree_to_simple_rst_tree 5 four_units_tree = Ok t ∧
       ∃ node, treenode t = Ok node ∧ node_rel node = Some "R2".
Proof.
  eexists. split; [reflexivity|].
  apply (convert_top_relation 5 four_units_tree _ 2 4 [1; 3]); reflexivity.
Defined.

(** ** Units that overlap *)

Lemma convert_leaves_ordered fuel dtree t :
  well_formed dtree →
  deptree_to_simple_rst_tree fuel dtree = Ok t →
  leaves t ≡ₚ drop 1 (edus dtree) ∧ StronglySorted before (leaves t).
Proof.
  intros [Hlen Hatt Hspans] H.
  apply convert_walk in H as (r & rparts & Hroots & Hr & Hw & ->).
  rewrite leaves_parts_to_tree.
  pose proof (walk_text_ordered _ _ _ _ Hspans Hr Hw) as [Hsorted _ _].
  assert (real_node dtree r) as Hreal.
  { apply (dependents_real dtree 0). unfold real_roots_idx in Hroots.
    rewrite Hroots. by left. }
  destruct (walk_nodes dtree fuel None r rparts Hreal Hw)
    as (nodes & HP & Hin & Hcl). simpl in HP.
  assert (NoDup nodes) as Hnd.
  { apply (NoDup_fmap_1 (edu_at dtree)). rewrite <-HP.
    apply StronglySorted_before_NoDup; [done|].
    intros e He. rewrite HP in He.
    apply list_elem_of_fmap in He as (x & -> & Hx).
    apply Hspans, real_node_unit; [done|]. by apply Hcl. }
  split; [|done]. rewrite HP, <-(units_of_real_nodes dtree Hlen).
  apply fmap_Permutation, NoDup_Permutation; [done| |].
  - apply NoDup_fmap_2; [apply _|apply NoDup_seq].
  - intros x. split.
    + intros Hx. destruct (Hcl x Hx) as [(i & -> & Hi) _].
      apply list_elem_of_fmap_2, elem_of_seq. lia.
    + intros (i & -> & Hi%elem_of_seq)%list_elem_of_fmap.
      eapply attached_in_closed; eauto. apply Hatt. lia.
Qed.

Lemma StronglySorted_either {A} (R : relation A) (l : list A) x y :
  StronglySorted R l → x ∈ l → y ∈ l → x ≠ y → R x y ∨ R y x.
Proof.
  induction 1 as [|z l Hl IH Hz]; intros Hx Hy Hne; [inversion Hx|].
  rewrite Forall_forall in Hz.
  apply elem_of_cons in Hx as [->|Hx]; apply elem_of_cons in Hy as [->|Hy].
  - done.
  - left. by apply Hz.
  - right. by apply Hz.
  - by apply IH.
Qed.

(** X16. A well-formed tree in which the spans of two units overlap is
    not converted: [deptree_to_simple_rst_tree] returns no tree for it,
    however the two units are attached. *)
Theorem convert_overlap_no_tree (fuel : nat) (dtree : RstDepTree)
    (i j : nat) (e1 e2 : EDU) :
  well_formed dtree →
  drop 1 (edus dtree) !! i = Some e1 →
  drop 1 (edus dtree) !! j = Some e2 →
  i ≠ j →
  overlaps (span e1) (span e2) = true →
  ∀ t, deptree_to_simple_rst_tree fuel dtree ≠ Ok t.
Proof.
  intros Hwf Hi Hj Hne Hov t H.
  destruct (convert_leaves_ordered _ _ _ Hwf H) as [HP Hsorted].
  assert (∀ e, e ∈ leaves t → char_start (span e) < char_end (span e)) as Hspans.
  { intros e He. rewrite HP in He. by apply (wf_spans _ Hwf). }
  assert (NoDup (drop 1 (edus dtree))) as Hnd.
  { rewrite <-HP. by apply StronglySorted_before_NoDup. }
  assert (e1 ≠ e2) as Hne12.
  { intros ->. apply Hne. by eapply NoDup_lookup. }
  apply list_elem_of_lookup_2 in Hi, Hj. rewrite <-HP in Hi, Hj.
  apply bool_decide_eq_true in Hov.
  destruct (StronglySorted_either _ _ _ _ Hsorted Hi Hj Hne12) as [Hb|Hb];
    unfold before in Hb; lia.
Qed.

Lemma overlapping_units_well_formed :
  well_formed
    (mkDepTree [lpad; mkEDU 1 (mkSpan 10 20); mkEDU 2 (mkSpan 15 25)]
       [-1; 0; 1] [None; Some "ROOT"; Some "R"] [NUC_S; NUC_S; NUC_S]
       [0; 0; 0]%nat ∅ None).
Proof.
  split.
  - reflexivity.
  - intros i Hi. simpl in Hi.
    assert (i = 1 ∨ i = 2)%nat as Hcases by lia.
    destruct Hcases as [-> | ->].
    + apply attached_root; [lia|reflexivity].
    + apply (attached_step _ 2 1); [lia|reflexivity|].
      apply (attached_root _ 1); [lia|reflexivity].
  - intros e He. simpl in He.
    repeat (apply elem_of_cons in He as [->|He]; [simpl; lia|]).
    inversion He.
Qed.

Lemma convert_overlap_no_tree_witness :
  ¬ ∃ t, deptree_to_simple_rst_tree 5
           (mkDepTree [lpad; mkEDU 1 (mkSpan 10 20); mkEDU 2 (mkSpan 15 25)]
              [-1; 0; 1] [None; Some "ROOT"; Some "R"] [NUC_S; NUC_S; NUC_S]
              [0; 0; 0]%nat ∅ None) = Ok t.
Proof.
  intros [t Ht].
  apply (convert_overlap_no_tree 5 _ 0 1 (mkEDU 1 (mkSpan 10 20))
           (mkEDU 2 (mkSpan 15 25)) overlapping_units_well_formed
           eq_refl eq_refl ltac:(lia) eq_refl t Ht).
Defined.

(** ** Reading the ranks back *)

Lemma leb_nat_total a b : leb_nat a b = false → leb_nat b a = true.
Proof.
  unfold leb_nat. rewrite bool_decide_eq_false, bool_decide_eq_true. lia.
Qed.

Lemma leb_nat_trans a b c :
  leb_nat a b = true → leb_nat b c = true → leb_nat a c = true.
Proof. unfold leb_nat. rewrite !bool_decide_eq_true. lia. Qed.

Lemma keyed_sorted_by_snd {A K} (leb : K → K → bool) (key : A → result K)
    (l : list (K * A)) :
  (∀ p, p ∈ l → key p.2 = Ok p.1) →
  StronglySorted (λ p q : K * A, leb p.1 q.1 = true) l →
  StronglySorted (λ a b, ∃ ka kb, key a = Ok ka ∧ key b = Ok kb
                                  ∧ leb ka kb = true) l.*2.
Proof.
  intros Hkey. induction 1 as [|x l Hl IH Hx]; simpl; [constructor|].
  constructor.
  - apply IH. intros p Hp. apply Hkey. by right.
  - apply Forall_fmap, Forall_forall. intros q Hq. simpl.
    rewrite Forall_forall in Hx. exists x.1, q.1.
    split; [apply Hkey; by left|]. split; [apply Hkey; by right|].
    by apply Hx.
Qed.

Lemma dependents_targets dtree h :
  0 ∉ targets_of dtree h → dependents dtree h = targets_of dtree h.
Proof.
  intros H0. unfold dependents, targets_of. f_equal.
  apply filter_ext_in. intros [i hd] Hin. simpl. split; [by intros [_ ?]|].
  intros ->. split; [|done].
  apply elem_of_enumerate in Hin as (k & Hk & Hl). simpl in *. subst.
  destruct k as [|k]; [|lia]. exfalso. apply H0, elem_of_targets. by exists 0%nat.
Qed.

Lemma ranked_sorted (rks : list nat) (res : list Z) :
  (∀ (k : nat) x, res !! k = Some x → py_index rks x = Ok k) →
  StronglySorted
    (λ a b, ∃ ka kb, py_index rks a = Ok ka ∧ py_index rks b = Ok kb
                     ∧ leb_nat ka kb = true) res.
Proof.
  induction res as [|x res IH] using rev_ind; intros Hr; [constructor|].
  apply StronglySorted_app_2.
  - intros x1 x2 [k1 Hk1]%list_elem_of_lookup ->%list_elem_of_singleton.
    exists k1, (length res). split; [|split].
    + apply Hr. by rewrite lookup_app_l by (by eapply lookup_lt_Some).
    + apply Hr. by rewrite list_lookup_middle.
    + apply bool_decide_eq_true. apply lookup_lt_Some in Hk1. lia.
  - apply IH. intros k y Hk. apply Hr.
    by rewrite lookup_app_l by (by eapply lookup_lt_Some).
  - repeat constructor.
Qed.

(** X17. The ranks that [predict] returns give back the order of the
    strategy: for a head that is not the head of the fake root, the
    dependents sorted by these ranks are the dependents in the order that
    the strategy computed. *)
Theorem deps_of_predicted_ranks (rk : InsideOutAttachmentRanker)
    (dtree : RstDepTree) (rks : list nat) (h : Z) :
  ranker_predict rk [dtree] = Ok [rks] →
  h ∈ drop 1 (heads dtree) →
  heads dtree !! 0%nat ≠ Some h →
  ∃ res, order_targets dtree h (rk_strategy rk) = Ok res ∧
         deps (with_ranks dtree rks) h = Ok res.
Proof.
  intros H%ranker_predict_single Hh H0.
  destruct (predict_tree_ranked_as _ _ _ h H Hh) as (res & Hres & Hon).
  exists res. split; [done|].
  apply order_targets_perm in Hres as HP.
  assert (0 ∉ targets_of dtree h) as H0'.
  { intros (i & Hi & Hl)%elem_of_targets.
    assert (i = 0%nat) as -> by lia. done. }
  unfold deps.
  change (dependents (with_ranks dtree rks) h) with (dependents dtree h).
  rewrite (dependents_targets _ _ H0'). cbn [ranks with_ranks].
  assert (∀ (k : nat) x, res !! k = Some x → py_index rks x = Ok k) as Hrank.
  { intros k x Hk. unfold ranks_on in Hon.
    assert (((λ i, rks !! Z.to_nat i) <$> res) !! k
            = Some (rks !! Z.to_nat x)) as H1.
    { by rewrite list_lookup_fmap, Hk. }
    rewrite Hon, list_lookup_fmap in H1.
    apply lookup_lt_Some in Hk as Hlen.
    rewrite lookup_seq_lt in H1 by done. simpl in H1.
    apply list_elem_of_lookup_2 in Hk. rewrite HP in Hk.
    apply elem_of_targets in Hk as (i & -> & _).
    rewrite Nat2Z.id in H1. apply py_index_nat. by injection H1. }
  destruct (sorted_total leb_nat (py_index rks) (targets_of dtree h))
    as [l Hl].
  { intros x Hx. rewrite <-HP in Hx.
    apply list_elem_of_lookup in Hx as [k Hk]. eauto. }
  rewrite Hl. f_equal.
  apply sorted_perm in Hl as HPl. unfold sorted in Hl. inv_bind Hl. inv_ok.
  eapply (StronglySorted_unique_strong
            (λ a b, ∃ ka kb, py_index rks a = Ok ka ∧ py_index rks b = Ok kb
                             ∧ leb_nat ka kb = true)).
  - intros x1 x2 H1 H2 (ka & kb & Hka & Hkb & Hab) (kb' & ka' & Hkb' & Hka' & Hba).
    rewrite Hka in Hka'. rewrite Hkb in Hkb'. inv_ok.
    unfold leb_nat in *. rewrite bool_decide_eq_true in Hab, Hba.
    assert (ka' = kb') as -> by lia.
    apply list_elem_of_lookup in H2 as [k2 Hk2].
    rewrite HPl, <-HP in H1. apply list_elem_of_lookup in H1 as [k1 Hk1].
    pose proof (Hrank _ _ Hk1) as E1. pose proof (Hrank _ _ Hk2) as E2.
    rewrite Hka in E1. rewrite Hkb in E2. inv_ok. congruence.
  - apply keyed_sorted_by_snd.
    + intros p Hp. rewrite stable_sort_perm in Hp. by eapply mapM_zip.
    + apply stable_sort_sorted_by; [apply leb_nat_total|apply leb_nat_trans].
  - by apply ranked_sorted.
  - by rewrite HPl, HP.
Qed.

Lemma deps_of_predicted_ranks_witness :
  ∃ res, order_targets six_units_tree 3 (rk_strategy (mkRanker "rlrlrl"))
         = Ok res ∧
         deps (with_ranks six_units_tree [0; 3; 1; 0; 0; 2; 4]%nat) 3 = Ok res.
Proof.
  apply (deps_of_predicted_ranks (mkRanker "rlrlrl") six_units_tree
           [0; 3; 1; 0; 0; 2; 4]%nat 3).
  - reflexivity.
  - apply (bool_decide_unpack _). reflexivity.
  - discriminate.
Defined.

(** ** The sentence of the head first *)

Ltac bool_to_prop :=
  repeat first
    [ rewrite orb_false_iff | rewrite andb_false_iff
    | rewrite orb_true_iff | rewrite andb_true_iff
    | rewrite Z.ltb_lt | rewrite Z.ltb_ge
    | rewrite Z.eqb_eq | rewrite Z.eqb_neq
    | rewrite Z.leb_le | rewrite Z.leb_gt ].

Lemma leb3_total a b : leb3 a b = false → leb3 b a = true.
Proof.
  unfold leb3, leb2. destruct a as [[a1 a2] a3], b as [[b1 b2] b3]. simpl.
  bool_to_prop. lia.
Qed.

Lemma leb3_trans a b c : leb3 a b = true → leb3 b c = true → leb3 a c = true.
Proof.
  unfold leb3, leb2. destruct a as [[a1 a2] a3], b as [[b1 b2] b3],
    c as [[c1 c2] c3]. simpl.
  bool_to_prop. lia.
Qed.

Lemma sorted_key_Ok {A K} (leb : K → K → bool) (key : A → result K) l res x :
  sorted leb key l = Ok res → x ∈ l → ∃ k, key x = Ok k.
Proof.
  unfold sorted. intros H Hx. inv_bind H.
  apply list_elem_of_lookup in Hx as [i Hi].
  destruct (mapM_lookup _ _ _ _ _ Ha Hi) as (k & _ & Hk). eauto.
Qed.

(** The rank of an item with a strictly smaller key is smaller. *)
Lemma sorted_rank_lt {K} (leb : K → K → bool) (key : Z → result K)
    dtree h res rks (a b : nat) ka kb :
  (∀ x y, leb x y = false → leb y x = true) →
  (∀ x y z, leb x y = true → leb y z = true → leb x z = true) →
  sorted leb key (targets_of dtree h) = Ok res →
  ranked_in_order rks res →
  heads dtree !! a = Some h → heads dtree !! b = Some h →
  key (Z.of_nat a) = Ok ka → key (Z.of_nat b) = Ok kb →
  leb kb ka = false →
  ∃ ra rb, rks !! a = Some ra ∧ rks !! b = Some rb ∧ (ra < rb)%nat.
Proof.
  intros Htotal Htrans Hres Hon Ha Hb Hka Hkb Hlt.
  apply sorted_perm in Hres as HP.
  assert (Z.of_nat a ∈ res) as Hia.
  { rewrite HP. apply elem_of_targets. eauto. }
  assert (Z.of_nat b ∈ res) as Hib.
  { rewrite HP. apply elem_of_targets. eauto. }
  apply list_elem_of_lookup in Hia as [i Hi].
  apply list_elem_of_lookup in Hib as [j Hj].
  assert (∀ (k : nat) (x : nat), res !! k = Some (Z.of_nat x) →
                                 rks !! x = Some k) as Hrank.
  { intros k x Hk. unfold ranked_in_order, ranks_on in Hon.
    assert (((λ i, rks !! Z.to_nat i) <$> res) !! k = Some (rks !! x)) as H1.
    { by rewrite list_lookup_fmap, Hk; simpl; rewrite Nat2Z.id. }
    rewrite Hon, list_lookup_fmap in H1.
    apply lookup_lt_Some in Hk as Hlen.
    rewrite lookup_seq_lt in H1 by done. simpl in H1. by injection H1. }
  exists i, j. split; [by apply Hrank|]. split; [by apply Hrank|].
  by eapply (sorted_smaller_first leb Htotal Htrans).
Qed.

Lemma intra_code_of_key dtree h rc lc sents ph e k :
  intra_key dtree h rc lc sents ph e = Ok k →
  intra_code dtree h sents e = Ok k.1.1.
Proof.
  unfold intra_key. intros H. inv_bind H. inv_bind H. inv_bind H. by inv_ok.
Qed.

Lemma intra_code_of_key_rl_lr dtree h sents ph e k :
  intra_rl_inter_lr_key dtree h sents ph e = Ok k →
  intra_code dtree h sents e = Ok k.1.1.
Proof.
  unfold intra_rl_inter_lr_key. intros H.
  inv_bind H. inv_bind H. inv_bind H. inv_bind H. inv_bind H. by inv_ok.
Qed.

Lemma order_targets_intra dtree h strategy res :
  strategy ∈ intra_strategies →
  order_targets dtree h strategy = Ok res →
  ∃ sents key,
    sent_idx dtree = Some sents ∧
    sorted leb3 key (targets_of dtree h) = Ok res ∧
    ∀ e k, key e = Ok k → intra_code dtree h sents e = Ok k.1.1.
Proof.
  intros Hs H. unfold order_targets in H. inv_bind H. inv_bind H.
  unfold intra_strategies in Hs.
  repeat (apply elem_of_cons in Hs as [->|Hs]); [| | |inversion Hs];
    repeat (rewrite bool_decide_eq_false_2 in H by done);
    (destruct (sent_idx dtree) as [sents|]; [|done]);
    exists sents.
  - rewrite bool_decide_eq_true_2 in H by done. inv_bind H.
    eexists. split; [done|]. split; [exact H|].
    apply intra_code_of_key_rl_lr.
  - rewrite bool_decide_eq_true_2 in H by done. inv_bind H.
    eexists. split; [done|]. split; [exact H|]. apply intra_code_of_key.
  - rewrite bool_decide_eq_true_2 in H by done. inv_bind H.
    eexists. split; [done|]. split; [exact H|]. apply intra_code_of_key.
Qed.

Lemma intra_code_value dtree h sents e pe ph se sh :
  idx dtree !! e = Some pe → idx dtree !! h = Some ph →
  py_index sents pe = Ok se → py_index sents ph = Ok sh →
  intra_code dtree h sents e = Ok (if bool_decide (se = sh) then 1 else 2).
Proof.
  intros He Hh Hse Hsh. unfold intra_code, same_sentence, py_getitem.
  rewrite He, Hh. cbn [bind]. rewrite Hse. cbn [bind]. rewrite Hsh. done.
Qed.

(** X18. Under each of the three 'closest-intra-*' strategies, a
    dependent in the sentence of its head has a smaller rank than a
    dependent of the same head in another sentence, whatever their
    distances to the head. *)
Theorem predict_intra_sentence_first (strategy : string)
    (dtree : RstDepTree) (rks : list nat) (sents : list Z) (h : Z)
    (a b : nat) (pa pb ph sa sb sh : Z) :
  strategy ∈ intra_strategies →
  ranker_predict (mkRanker strategy) [dtree] = Ok [rks] →
  h ∈ drop 1 (heads dtree) →
  sent_idx dtree = Some sents →
  heads dtree !! a = Some h → heads dtree !! b = Some h →
  idx dtree !! Z.of_nat a = Some pa → idx dtree !! Z.of_nat b = Some pb →
  idx dtree !! h = Some ph →
  py_index sents pa = Ok sa → py_index sents pb = Ok sb →
  py_index sents ph = Ok sh →
  sa = sh → sb ≠ sh →
  ∃ ra rb, rks !! a = Some ra ∧ rks !! b = Some rb ∧ (ra < rb)%nat.
Proof.
  intros Hs H%ranker_predict_single Hh Hsent Ha Hb Hpa Hpb Hph Hsa Hsb Hsh
    Hsame Hother. cbn [rk_strategy] in H.
  destruct (predict_tree_ranked_as _ _ _ h H Hh) as (res & Hres & Hon).
  apply (order_targets_intra _ _ _ _ Hs) in Hres
    as (sents' & key & Hsent' & Hres & Hkey).
  rewrite Hsent in Hsent'. injection Hsent' as <-.
  assert (Z.of_nat a ∈ targets_of dtree h) as Hta.
  { apply elem_of_targets. eauto. }
  assert (Z.of_nat b ∈ targets_of dtree h) as Htb.
  { apply elem_of_targets. eauto. }
  destruct (sorted_key_Ok _ _ _ _ _ Hres Hta) as [ka Hka].
  destruct (sorted_key_Ok _ _ _ _ _ Hres Htb) as [kb Hkb].
  pose proof (Hkey _ _ Hka) as Ca. pose proof (Hkey _ _ Hkb) as Cb.
  rewrite (intra_code_value _ _ _ _ _ _ _ _ Hpa Hph Hsa Hsh) in Ca.
  rewrite (intra_code_value _ _ _ _ _ _ _ _ Hpb Hph Hsb Hsh) in Cb.
  rewrite bool_decide_eq_true_2 in Ca by done.
  rewrite bool_decide_eq_false_2 in Cb by done. inv_ok.
  eapply (sorted_rank_lt leb3 key); eauto using leb3_total, leb3_trans.
  unfold leb3. rewrite <-Ca, <-Cb. reflexivity.
Qed.

Lemma predict_intra_sentence_first_witness :
  ∃ ra rb, ([0; 2; 0; 0; 1]%nat : list nat) !! 4%nat = Some ra ∧
           ([0; 2; 0; 0; 1]%nat : list nat) !! 1%nat = Some rb ∧
           (ra < rb)%nat.
Proof.
  apply (predict_intra_sentence_first "closest-intra-rl-inter-lr"
           two_sentences_tree [0; 2; 0; 0; 1]%nat [9; 1; 0; 0; 0] 2 4 1
           4 1 2 0 1 0).
  - apply (bool_decide_unpack _). reflexivity.
  - reflexivity.
  - apply (bool_decide_unpack _). reflexivity.
  - reflexivity.
  - reflexivity.
  - reflexivity.
  - reflexivity.
  - reflexivity.
  - reflexivity.
  - reflexivity.
  - reflexivity.
  - reflexivity.
  - reflexivity.
  - discriminate.
Defined.

(** ** The order in which the set of heads is iterated *)

Lemma rank_heads_Ok_orders strategy dtree hs : ∀ rks rks',
  rank_heads strategy dtree hs rks = Ok rks' →
  ∀ h, h ∈ hs → ∃ res, order_targets dtree h strategy = Ok res.
Proof.
  induction hs as [|h0 hs IH]; simpl; intros rks rks' H h Hh.
  - inversion Hh.
  - inv_bind H. rename a into res. inv_bind H.
    apply elem_of_cons in Hh as [->|Hh]; [eauto|]. by eapply IH.
Qed.

Lemma rank_heads_orders_Ok strategy dtree hs : ∀ rks,
  length rks = length (heads dtree) →
  (∀ h, h ∈ hs → ∃ res, order_targets dtree h strategy = Ok res) →
  ∃ rks', rank_heads strategy dtree hs rks = Ok rks'.
Proof.
  induction hs as [|h hs IH]; simpl; intros rks Hrks Hhs; [eauto|].
  destruct (Hhs h) as [res Hres]; [by left|].
  rewrite Hres. cbn [bind]. apply order_targets_perm in Hres.
  destruct (update_ranks_total res 0%nat rks) as (rks1 & -> & Hlen1).
  { intros x Hx. rewrite Hres in Hx.
    apply elem_of_targets in Hx as (j & -> & Hj).
    apply lookup_lt_Some in Hj. exists j. split; [done|lia]. }
  cbn [bind]. apply IH; [congruence|].
  intros h' Hh'. apply Hhs. by right.
Qed.

Lemma ranks_on_lookup rks rks' T x :
  ranks_on rks T = ranks_on rks' T → x ∈ T →
  rks !! Z.to_nat x = rks' !! Z.to_nat x.
Proof.
  unfold ranks_on. intros H Hx.
  apply list_elem_of_lookup in Hx as [i Hi].
  apply (f_equal (.!! i)) in H. rewrite !list_lookup_fmap, Hi in H.
  simpl in H. by injection H.
Qed.

Lemma rank_heads_unique strategy dtree hs1 hs2 rks r1 r2 :
  NoDup hs1 → NoDup hs2 → (∀ x, x ∈ hs1 ↔ x ∈ hs2) →
  length rks = length (heads dtree) →
  rank_heads strategy dtree hs1 rks = Ok r1 →
  rank_heads strategy dtree hs2 rks = Ok r2 →
  r1 = r2.
Proof.
  intros Hnd1 Hnd2 Hiff Hlen H1 H2.
  apply rank_heads_spec in H1 as (Hlen1 & Hdone1 & Hother1); [|done].
  apply rank_heads_spec in H2 as (Hlen2 & Hdone2 & Hother2); [|done].
  apply list_eq. intros j.
  destruct (heads dtree !! j) as [h|] eqn:Hj.
  - destruct (decide (h ∈ hs1)) as [Hin|Hnotin].
    + destruct (Hdone1 h Hin) as (res & Hres & Hon1).
      destruct (Hdone2 h) as (res' & Hres' & Hon2); [by apply Hiff|].
      rewrite Hres in Hres'. injection Hres' as <-.
      rewrite <-(Nat2Z.id j). apply (ranks_on_lookup _ _ res); [congruence|].
      apply order_targets_perm in Hres. rewrite Hres.
      apply elem_of_targets. eauto.
    + rewrite (Hother1 j h Hj Hnotin). symmetry. apply (Hother2 j h Hj).
      by rewrite <-Hiff.
  - apply lookup_ge_None in Hj.
    rewrite !(lookup_ge_None_2 _ j); [done|lia|lia].
Qed.

(** X19. The order in which the set of heads is iterated does not matter:
    taking the heads of a tree in any order [hs], the loop of [predict]
    returns the same array of ranks as in the order of [unique_heads], and
    it raises in the one order exactly when it raises in the other (the
    exception raised may differ when several heads fail). *)
Theorem predict_any_order (strategy : string) (dtree : RstDepTree)
    (hs : list Z) :
  hs ≡ₚ unique_heads dtree →
  same_outcome
    (rank_heads strategy dtree hs ((λ _, 0%nat) <$> heads dtree))
    (predict_tree strategy dtree).
Proof.
  intros HP. unfold predict_tree.
  assert (NoDup (unique_heads dtree)) as Hnd by apply NoDup_remove_dups.
  assert (NoDup hs) as Hnd' by (by rewrite HP).
  assert (∀ x, x ∈ hs ↔ x ∈ unique_heads dtree) as Hiff
    by (intros x; by rewrite HP).
  assert (length ((λ _ : Z, 0%nat) <$> heads dtree) = length (heads dtree))
    as Hlen by apply length_fmap.
  destruct (rank_heads strategy dtree hs _) as [r1|e1] eqn:E1;
    destruct (rank_heads strategy dtree (unique_heads dtree) _)
      as [r2|e2] eqn:E2; simpl; [|..|done].
  - exact (rank_heads_unique strategy dtree hs (unique_heads dtree) _ r1 r2
             Hnd' Hnd Hiff Hlen E1 E2).
  - destruct (rank_heads_orders_Ok strategy dtree (unique_heads dtree) _ Hlen)
      as [r2 Hr2]; [|congruence].
    intros h Hh. eapply rank_heads_Ok_orders; [exact E1|]. by apply Hiff.
  - destruct (rank_heads_orders_Ok strategy dtree hs _ Hlen)
      as [r1 Hr1]; [|congruence].
    intros h Hh. eapply rank_heads_Ok_orders; [exact E2|]. by apply Hiff.
Qed.

Lemma predict_any_order_witness :
  [2; 0] ≡ₚ unique_heads four_units_tree ∧
  same_outcome
    (rank_heads "lrlrlr" four_units_tree [2; 0]
       ((λ _, 0%nat) <$> heads four_units_tree))
    (predict_tree "lrlrlr" four_units_tree).
Proof.
  split; [vm_compute; apply perm_swap|].
  apply (predict_any_order "lrlrlr" four_units_tree [2; 0]).
  vm_compute. apply perm_swap.
Defined.
